(** * QuizGenerator: a shallow embedding of [quiz_generator.py]

    The text-analysis and question-synthesis pipeline of the
    [QuizGenerator] class: key-term extraction, sentence filtering, essay
    questions, multiple-choice questions and the [generate_content] driver.

    Conventions of the embedding.
    - A Python [str] is a [string]; each [ascii] stands for the code point
      of the same number, so the texts covered are those over
      U+0000..U+00FF.  Character classes follow Python's Unicode-aware
      [str.isspace], [str.lower] and the regular-expression class [\w];
      the bracket class [[a-zA-Z]] is ASCII only.
    - A Python [dict] keeps insertion order: it is an association list
      whose keys are updated in place and appended when new.
    - The [random] module is an explicit source of draws threaded through
      a state-and-exception monad; [random.choice] and [random.shuffle] are
      CPython's algorithms over [_randbelow].
    - A Python exception is the [Raise] outcome of the monad. *)

From Stdlib Require Import Ascii String DecimalString.
From Equations Require Import Equations.
From stdpp Require Import base list strings gmap.

Local Open Scope string_scope.
Local Open Scope nat_scope.
Local Open Scope list_scope.

(** ** Python strings *)

Module PyStr.

Definition code (c : ascii) : nat := nat_of_ascii c.

Definition between (lo hi n : nat) : bool := (lo <=? n) && (n <=? hi).

(** [str.isspace] on one character: TAB..CR, FS..US and space, NEL,
    NBSP. *)
Definition isspace (c : ascii) : bool :=
  let n := code c in
  between 9 13 n || between 28 32 n || (n =? 133) || (n =? 160).

Definition is_upper_az (c : ascii) : bool := between 65 90 (code c).
Definition is_lower_az (c : ascii) : bool := between 97 122 (code c).

(** The bracket class [[a-zA-Z]]. *)
Definition is_az (c : ascii) : bool := is_upper_az c || is_lower_az c.

(** The class [\w] of a [str] pattern: alphanumeric or underscore. *)
Definition is_word (c : ascii) : bool :=
  let n := code c in
  is_az c || between 48 57 n || (n =? 95)
  || (n =? 170) || between 178 179 n || (n =? 181) || between 185 186 n
  || between 188 190 n || between 192 214 n || between 216 246 n
  || between 248 255 n.

(** The delimiter class [[.!?]]. *)
Definition is_delim (c : ascii) : bool :=
  let n := code c in (n =? 46) || (n =? 33) || (n =? 63).

(** [str.lower] on one character. *)
Definition lower_char (c : ascii) : ascii :=
  let n := code c in
  if between 65 90 n || between 192 214 n || between 216 222 n
  then ascii_of_nat (n + 32) else c.

Definition chars (s : string) : list ascii := list_ascii_of_string s.
Definition str (l : list ascii) : string := string_of_list_ascii l.

Definition lower (s : string) : string := str (lower_char <$> chars s).

Fixpoint take_while {A} (p : A → bool) (l : list A) : list A :=
  match l with
  | [] => []
  | x :: l' => if p x then x :: take_while p l' else []
  end.

Fixpoint drop_while {A} (p : A → bool) (l : list A) : list A :=
  match l with
  | [] => []
  | x :: l' => if p x then drop_while p l' else l
  end.

(** [s.strip()]: leading and trailing whitespace removed. *)
Definition strip (s : string) : string :=
  str (reverse (drop_while isspace (reverse (drop_while isspace (chars s))))).

(** [s.split()]: the maximal runs of non-whitespace characters. [cur] is
    the run being read. *)
Fixpoint split_go (cur : list ascii) (s : list ascii) : list string :=
  match s with
  | [] => match cur with [] => [] | _ => [str cur] end
  | c :: s' =>
      if isspace c
      then match cur with
           | [] => split_go [] s'
           | _ => str cur :: split_go [] s'
           end
      else split_go (cur ++ [c]) s'
  end.

Definition split (s : string) : list string := split_go [] (chars s).

(** [re.split(r'[.!?]+', text)]: the fragments between the runs of
    delimiters, the empty ones at both ends included. [frag] is the
    fragment being read, [in_run] tells that the previous character was a
    delimiter. *)
Fixpoint re_split_go (frag : list ascii) (in_run : bool) (s : list ascii)
  : list string :=
  match s with
  | [] => [str frag]
  | c :: s' =>
      if is_delim c
      then if in_run then re_split_go [] true s'
           else str frag :: re_split_go [] true s'
      else re_split_go (frag ++ [c]) false s'
  end.

Definition re_split (text : string) : list string :=
  re_split_go [] false (chars text).

(** The assertion [\b] between the previous character (if any) and the
    next one (if any). *)
Definition word_boundary (prev next : option ascii) : bool :=
  let w o := match o with Some c => is_word c | None => false end in
  xorb (w prev) (w next).

(** [re.findall(r'\b[a-zA-Z]{3,}\b', s)]: at every position, from left to
    right, the pattern is tried: a boundary, then the longest run of
    letters, of which no shorter prefix can end at a boundary, then a
    boundary. A position inside a match is preceded by a letter and cannot
    start another one, so the scan may advance by one character. *)
Fixpoint findall_go (prev : option ascii) (s : list ascii) : list string :=
  match s with
  | [] => []
  | c :: s' =>
      let run := take_while is_az s in
      let rest := findall_go (Some c) s' in
      if word_boundary prev (Some c)
         && (3 <=? length run)
         && word_boundary (last run) (head (drop (length run) s))
      then str run :: rest
      else rest
  end.

Definition findall_words (s : string) : list string :=
  findall_go None (chars s).

(** [template.format(arg)] for a template whose replacement fields are
    written [{}]; the templates of this program have exactly one. *)
Fixpoint format (template arg : string) : string :=
  match template with
  | EmptyString => EmptyString
  | String c t =>
      match c, t with
      | "{"%char, String "}"%char t' => arg +:+ format t' arg
      | _, _ => String c (format t arg)
      end
  end.

(** [str(n)] for a natural number. *)
Definition of_nat (n : nat) : string :=
  NilZero.string_of_uint (Nat.to_uint n).

(** [chr(n)], for [n < 256]. *)
Definition chr (n : nat) : string := String (ascii_of_nat n) EmptyString.

(** [ord(s)] of a one-character string. *)
Definition ord (s : string) : option nat :=
  match s with
  | String c EmptyString => Some (code c)
  | _ => None
  end.

End PyStr.

(** ** Exceptions and the source of randomness *)

Inductive exn : Type := IndexError | ValueError.

Inductive outcome (A : Type) : Type :=
| Ok (a : A)
| Raise (e : exn).
Arguments Ok {A} a.
Arguments Raise {A} e.

(** The draws of the generator, and how many were consumed. *)
Record Rng : Type := { draws : nat → nat; pos : nat }.

Definition M (A : Type) : Type := Rng → outcome (A * Rng).

Definition ret {A} (a : A) : M A := λ g, Ok (a, g).

Definition bind {A B} (k : A → M B) (m : M A) : M B :=
  λ g, match m g with
       | Ok (a, g') => k a g'
       | Raise e => Raise e
       end.

Definition raise {A} (e : exn) : M A := λ _, Raise e.

#[global] Instance M_ret : MRet M := @ret.
#[global] Instance M_bind : MBind M := @bind.

(** [random._randbelow(n)], for [0 < n]. *)
Definition randbelow (n : nat) : M nat :=
  λ g, Ok (draws g (pos g) `mod` n, {| draws := draws g; pos := S (pos g) |}).

(** [l[i]] *)
Definition index_at {A} (l : list A) (i : nat) : M A :=
  match l !! i with
  | Some x => ret x
  | None => raise IndexError
  end.

(** [random.choice(l)] *)
Definition choice {A} (l : list A) : M A :=
  match l with
  | [] => raise IndexError
  | _ => i ← randbelow (length l) ; index_at l i
  end.

(** [x[i], x[j] = x[j], x[i]] *)
Definition swap {A} (x : list A) (i j : nat) : M (list A) :=
  a ← index_at x j ;
  b ← index_at x i ;
  ret (<[j := b]> (<[i := a]> x)).

(** [random.shuffle(x)]:
    [for i in reversed(range(1, len(x))): j = randbelow(i + 1); swap]. *)
Fixpoint shuffle_from {A} (i : nat) (x : list A) : M (list A) :=
  match i with
  | 0 => ret x
  | S i' => j ← randbelow (S i) ; x' ← swap x i j ; shuffle_from i' x'
  end.

Definition shuffle {A} (x : list A) : M (list A) :=
  shuffle_from (length x - 1) x.

(** [l.index(v)] *)
Fixpoint list_index (l : list string) (v : string) : option nat :=
  match l with
  | [] => None
  | x :: l' => if String.eqb x v then Some 0 else S <$> list_index l' v
  end.

Definition index_of (l : list string) (v : string) : M nat :=
  match list_index l v with
  | Some i => ret i
  | None => raise ValueError
  end.

(** A [for] loop over [xs] that updates the loop state [s]. *)
Fixpoint for_each {A S} (xs : list A) (body : S → A → M S) (s : S) : M S :=
  match xs with
  | [] => ret s
  | x :: xs' => s' ← body s x ; for_each xs' body s'
  end.

(** ** Dictionaries with insertion order *)

Definition dict : Type := list (string * nat).

(** [d.get(k, default)] *)
Fixpoint dict_get (d : dict) (k : string) (default : nat) : nat :=
  match d with
  | [] => default
  | (k', v) :: d' => if String.eqb k' k then v else dict_get d' k default
  end.

(** [d[k] = v] *)
Fixpoint dict_set (d : dict) (k : string) (v : nat) : dict :=
  match d with
  | [] => [(k, v)]
  | (k', v') :: d' =>
      if String.eqb k' k then (k', v) :: d' else (k', v') :: dict_set d' k v
  end.

(** ** The generator *)

Module QuizGenerator.
Import PyStr.

Definition question_starters : list string :=
  [ "What is the significance of";
    "How does";
    "Why is";
    "What are the main characteristics of";
    "Explain the relationship between";
    "What factors contribute to";
    "How can we understand";
    "What role does" ].

Definition essay_prompts : list string :=
  [ "Analyze and discuss the key concepts presented in the text regarding {}. Provide specific examples and explain their significance.";
    "Compare and contrast different aspects of {} mentioned in the document. How do these elements relate to each other?";
    "Evaluate the importance of {} in the context provided. What are the potential implications or consequences?";
    "Describe the main themes related to {} and explain how they connect to broader concepts or real-world applications.";
    "Critically examine {} as presented in the text. What questions or areas for further research does this raise?" ].

Definition common_words : gset string :=
  list_to_set
    [ "the"; "a"; "an"; "and"; "or"; "but"; "in"; "on"; "at"; "to"; "for";
      "of"; "with"; "by"; "is"; "are"; "was"; "were"; "be"; "been"; "being";
      "have"; "has"; "had"; "do"; "does"; "did"; "will"; "would"; "could";
      "should"; "may"; "might"; "must"; "can"; "this"; "that"; "these";
      "those"; "i"; "you"; "he"; "she"; "it"; "we"; "they"; "me"; "him";
      "her"; "us"; "them"; "my"; "your"; "his"; "her"; "its"; "our"; "their" ].

(** The counting loop of [extract_key_terms]. *)
Definition count_step (word_freq : dict) (word : string) : dict :=
  if bool_decide (word ∈ common_words) then word_freq
  else dict_set word_freq word (dict_get word_freq word 0 + 1).

Definition count_words (words : list string) : dict :=
  foldl count_step [] words.

Definition extract_key_terms (text : string) : list string :=
  let words := findall_words (lower text) in
  let word_freq := count_words words in
  let key_terms := (filter (λ it, 2 ≤ it.2) word_freq).*1 in
  let key_terms :=
    if decide (length key_terms < 10) then
      let single_terms := (filter (λ it, it.2 = 1) word_freq).*1 in
      key_terms ++ take (10 - length key_terms) single_terms
    else key_terms in
  take 15 key_terms.

Definition sentence_step (meaningful_sentences : list string)
    (sentence : string) : list string :=
  let sentence := strip sentence in
  if decide (5 ≤ length (split sentence))
  then meaningful_sentences ++ [sentence]
  else meaningful_sentences.

Definition extract_sentences (text : string) : list string :=
  foldl sentence_step [] (re_split text).

(** [enumerate(l)] *)
Definition enumerate {A} (l : list A) : list (nat * A) :=
  zip (seq 0 (length l)) l.

Definition generic_body : string :=
  "Analyze the main ideas presented in the provided text and discuss their significance. Support your analysis with specific examples from the material.".

Definition generic_essay (n : nat) : string :=
  "Essay Question " +:+ of_nat n +:+ ": " +:+ generic_body.

(** [while len(essay_questions) < 2: essay_questions.append(...)] *)
Equations fill_generic (essay_questions : list string) : list string
  by wf (2 - length essay_questions) lt :=
  fill_generic essay_questions with decide (length essay_questions < 2) := {
    | left _ =>
        fill_generic
          (essay_questions ++ [generic_essay (length essay_questions + 1)]);
    | right _ => essay_questions }.
Next Obligation. intros qs H _. rewrite length_app. simpl. lia. Qed.

Definition essay_step (essay_questions : list string) (it : nat * string)
  : M (list string) :=
  let '(i, term) := it in
  prompt_template ← choice essay_prompts;
  let question := format prompt_template term in
  ret (essay_questions
         ++ ["Essay Question " +:+ of_nat (i + 1) +:+ ": " +:+ question]).

Definition generate_essay_questions (text : string)
    (key_terms : list string) : M (list string) :=
  let selected_terms :=
    if decide (3 ≤ length key_terms) then take 3 key_terms else key_terms in
  essay_questions ←
    for_each (enumerate (take 2 selected_terms)) essay_step [];
  ret (fill_generic essay_questions).

Record MCQuestion : Type := {
  question : string;
  options : list string;
  correct_answer : string;
  explanation : string
}.

Definition generic_options : list string :=
  [ "A main idea from the provided material";
    "An unrelated concept";
    "A different topic entirely";
    "Something not mentioned in the text" ].

Definition generic_question : MCQuestion :=
  {| question := "What is a key concept discussed in the text?";
     options := generic_options;
     correct_answer := "A";
     explanation := "This question tests comprehension of the main content." |}.

(** [random.choice(key_terms) if key_terms else fallback] *)
Definition choice_or (key_terms : list string) (fallback : string)
  : M string :=
  match key_terms with
  | [] => ret fallback
  | _ => choice key_terms
  end.

Definition correct_text (term : string) : string :=
  "Related to " +:+ term +:+ " as mentioned in the context".

Definition mc_step (key_terms sentences : list string)
    (mc_questions : list MCQuestion) (i : nat) : M (list MCQuestion) :=
  if bool_decide (i < length key_terms) && bool_decide (i < length sentences)
  then
    term ← index_at key_terms i;
    context_sentence ←
      (if bool_decide (i < length sentences) then index_at sentences i
       else index_at sentences 0);
    question_starter ← choice question_starters;
    let question := question_starter +:+ " " +:+ term +:+ "?" in
    let correct_answer := correct_text term in
    a ← choice_or key_terms "general topic";
    b ← choice_or key_terms "another topic";
    c ← choice_or key_terms "different subject";
    let options :=
      [ correct_answer;
        "Unrelated concept A about " +:+ a;
        "Unrelated concept B about " +:+ b;
        "Unrelated concept C about " +:+ c ] in
    options ← shuffle options;
    correct_index ← index_of options correct_answer;
    ret (mc_questions
           ++ [ {| question := question;
                   options := options;
                   correct_answer := chr (65 + correct_index);
                   explanation :=
                     "This question focuses on understanding " +:+ term
                     +:+ " in the given context." |} ])
  else ret (mc_questions ++ [generic_question]).

Definition generate_multiple_choice (text : string)
    (key_terms sentences : list string) : M (list MCQuestion) :=
  for_each (seq 0 3) (mc_step key_terms sentences) [].

Definition generate_content (input_text : string)
  : M (list string * list MCQuestion) :=
  if decide (strip input_text = "") then ret ([], [])
  else
    let key_terms := extract_key_terms input_text in
    let sentences := extract_sentences input_text in
    essay_questions ← generate_essay_questions input_text key_terms;
    mc_questions ← generate_multiple_choice input_text key_terms sentences;
    ret (essay_questions, mc_questions).

(** A source whose first draws are those of [l]; the later ones are 0. *)
Definition rng_of (l : list nat) : Rng :=
  {| draws := λ n, nth n l 0; pos := 0 |}.

End QuizGenerator.

(** ** What the specification says, in its own words *)

Module Spec.
Import PyStr QuizGenerator.

(** The words that are counted: the tokens of the lowered text that are
    not stopwords. *)
Definition qualifying_words (text : string) : list string :=
  filter (λ w, w ∉ common_words) (findall_words (lower text)).

(** Observed frequency of [w] among the words [ws]. *)
Definition frequency (ws : list string) (w : string) : nat :=
  length (filter (λ x, x = w) ws).

(** The distinct words of [ws], each at the place of its first
    occurrence. *)
Definition discovery_order (ws : list string) : list string :=
  foldl (λ seen w, if bool_decide (w ∈ seen) then seen else seen ++ [w])
        [] ws.

(** Position of the first occurrence of [w] in [ws]. *)
Definition first_seen (ws : list string) (w : string) : option nat :=
  list_index ws w.

(** [a] is seen for the first time before [b] is. *)
Definition seen_before (ws : list string) (a b : string) : Prop :=
  ∃ pa pb, first_seen ws a = Some pa ∧ first_seen ws b = Some pb ∧ pa < pb.

(** Key terms as section 4.2 words them: the words of frequency at least
    2, padded up to 10 entries with words of frequency 1 when there are
    fewer than 10, both in discovery order, and cut to 15 entries. *)
Definition key_terms_spec (text : string) : list string :=
  let ws := qualifying_words text in
  let primary := filter (λ w, 2 ≤ frequency ws w) (discovery_order ws) in
  let pool := filter (λ w, frequency ws w = 1) (discovery_order ws) in
  let padded :=
    if decide (length primary < 10)
    then primary ++ take (10 - length primary) pool
    else primary in
  take 15 padded.

(** A term: a token of at least 3 letters, all of them in [a-z]. *)
Definition is_term (t : string) : Prop :=
  3 ≤ String.length t ∧ Forall (λ c, is_lower_az c = true) (chars t).

(** The list [l] is ranked by descending frequency, ties broken by first
    occurrence. *)
Definition ranked_by_frequency (ws l : list string) : Prop :=
  ∀ i j a b, i < j → l !! i = Some a → l !! j = Some b →
    frequency ws b ≤ frequency ws a
    ∧ (frequency ws a = frequency ws b → seen_before ws a b).

(** The list [l] has its terms of frequency at least 2 before those of
    frequency 1, each of the two groups in order of first occurrence. *)
Definition tiered_by_discovery (ws l : list string) : Prop :=
  ∀ i j a b, i < j → l !! i = Some a → l !! j = Some b →
    (2 ≤ frequency ws b → 2 ≤ frequency ws a)
    ∧ ((2 ≤ frequency ws a ↔ 2 ≤ frequency ws b) → seen_before ws a b).

(** Sentences as section 4.3 words them: the trimmed fragments that have
    at least 5 words. *)
Definition sentences_spec (text : string) : list string :=
  filter (λ s, 5 ≤ length (split s)) (strip <$> re_split text).

(** The index that an answer letter stands for: [ord(letter) - ord('A')]. *)
Definition letter_index (letter : string) : option nat :=
  n ← ord letter; if decide (65 ≤ n) then Some (n - 65) else None.

(** Index [i] is valid in both lists. *)
Definition in_bounds (key_terms sentences : list string) (i : nat) : bool :=
  bool_decide (i < length key_terms) && bool_decide (i < length sentences).

(** The answer text that question [i] is meant to have. *)
Definition intended_answer (key_terms sentences : list string) (i : nat)
  : string :=
  if in_bounds key_terms sentences i
  then correct_text (default "" (key_terms !! i))
  else "A main idea from the provided material".

(** The four options of a question on [term], before the shuffle, with
    distractor topics [a], [b] and [c]. *)
Definition options_of (term a b c : string) : list string :=
  [ correct_text term;
    "Unrelated concept A about " +:+ a;
    "Unrelated concept B about " +:+ b;
    "Unrelated concept C about " +:+ c ].

(** [q] is a question built on the term at index [i]. *)
Definition built_from (key_terms : list string) (i : nat) (q : MCQuestion)
  : Prop :=
  ∃ term starter a b c idx,
    key_terms !! i = Some term
    ∧ starter ∈ question_starters
    ∧ a ∈ key_terms ∧ b ∈ key_terms ∧ c ∈ key_terms
    ∧ options q ≡ₚ options_of term a b c
    ∧ list_index (options q) (correct_text term) = Some idx
    ∧ question q = starter +:+ " " +:+ term +:+ "?"
    ∧ correct_answer q = chr (65 + idx)
    ∧ explanation q =
        "This question focuses on understanding " +:+ term
        +:+ " in the given context.".

(** What question [i] has to be: built on term [i] when the index is valid
    in both lists, the generic question otherwise. *)
Definition question_at (key_terms sentences : list string) (i : nat)
    (q : MCQuestion) : Prop :=
  if in_bounds key_terms sentences i then built_from key_terms i q
  else q = generic_question.

(** The dictionary that maps each key of [D] to [f] of it. *)
Definition tabulate (f : string → nat) (D : list string) : dict :=
  (λ k, (k, f k)) <$> D.

End Spec.

(** ** Sample inputs *)

Module Samples.
Import QuizGenerator.

Definition plants : string :=
  "Plants use sunlight to make food. Plants need water and sunlight to grow well. Animals eat plants to get their energy.".

Definition pets : string :=
  "Dogs bark. Dogs bark. Cats purr. Cats purr. Cats purr.".

Definition stopwords_only : string := "The and of it".

Definition blank : string := "   ".

Definition some_draws : Rng :=
  rng_of [3; 1; 4; 1; 5; 9; 2; 6; 5; 3; 5; 8; 9; 7; 9; 3; 2; 3; 8; 4; 6; 2; 6].

Definition three_terms : list string := ["plants"; "sunlight"; "water"].

Definition two_sentences : list string :=
  ["Plants use sunlight to make food";
   "Plants need water and sunlight to grow well"].

Definition other_sentences : list string :=
  ["Animals eat plants to get their energy";
   "Dogs and cats live with people"].

End Samples.

Import PyStr QuizGenerator Spec Samples.

(** ** The pure parts of [main] *)

Module Display.

(** [old] is a prefix of [s]. *)
Fixpoint starts_with (old s : list ascii) : bool :=
  match old, s with
  | [], _ => true
  | a :: old', b :: s' => Ascii.eqb a b && starts_with old' s'
  | _ :: _, [] => false
  end.

(** The scan of [s.replace(old, new)] for an [old] that is not empty: the
    occurrences of [old] are replaced from left to right, the search going
    on after each one; [skip] counts the characters of an occurrence still
    to pass over. *)
Fixpoint replace_go (old new : list ascii) (skip : nat) (s : list ascii)
  : list ascii :=
  match s with
  | [] => []
  | c :: s' =>
      match skip with
      | S k => replace_go old new k s'
      | 0 =>
          if starts_with old s
          then new ++ replace_go old new (length old - 1) s'
          else c :: replace_go old new 0 s'
      end
  end.

(** [s.replace(old, new)]; an empty [old] matches before every character
    and at the end. *)
Definition replace (s old new : string) : string :=
  match chars old with
  | [] => str (chars new ++ flat_map (λ c, c :: chars new) (chars s))
  | o => str (replace_go o (chars new) 0 (chars s))
  end.

(** [enumerate(l, start)] *)
Definition enumerate_from {A} (start : nat) (l : list A) : list (nat * A) :=
  zip (seq start (length l)) l.

(** [question.replace(f"Essay Question {i}: ", "")] *)
Definition essay_text (i : nat) (question : string) : string :=
  replace question ("Essay Question " +:+ of_nat i +:+ ": ") "".

(** The texts written for the essay questions, by the page and by the
    export alike. *)
Definition essay_texts (essay_questions : list string) : list string :=
  (λ it, essay_text it.1 it.2) <$> enumerate_from 1 essay_questions.

(** A line written for an option: the one whose letter is the answer is set
    in bold with a check mark, the others are plain. The line is kept as
    its letter and its option. *)
Inductive option_line : Type :=
| Marked (prefix option : string)
| Plain (prefix option : string).

Definition is_marked (l : option_line) : bool :=
  match l with Marked _ _ => true | Plain _ _ => false end.

(** The lines written for the options of a question:
    [for j, option in enumerate(q['options'])]. *)
Definition option_lines (q : MCQuestion) : list option_line :=
  (λ it,
     let prefix := chr (65 + it.1) in
     if String.eqb prefix (correct_answer q) then Marked prefix it.2
     else Plain prefix it.2) <$> enumerate (options q).

(** What [main] reports after the button: the generated questions with
    [st.success], [st.error] when both lists are empty, [st.warning] when
    the button was clicked on a blank text, nothing otherwise. *)
Inductive report : Type :=
| Generated (essay_questions : list string) (mc_questions : list MCQuestion)
| CouldNotGenerate
| PleaseEnterText
| NoReport.

(** The truth value of a list. *)
Definition truthy {A} (l : list A) : bool :=
  match l with [] => false | _ => true end.

Definition main_report (generate_clicked : bool) (input_text : string)
  : M report :=
  if generate_clicked && negb (String.eqb (strip input_text) "") then
    r ← generate_content input_text;
    let '(essay_questions, mc_questions) := r in
    if truthy essay_questions || truthy mc_questions
    then ret (Generated essay_questions mc_questions)
    else ret CouldNotGenerate
  else if generate_clicked then ret PleaseEnterText
  else ret NoReport.

End Display.

(** ** Vocabulary of the further properties *)

Module Props.

(** The string [t] occurs in [s], between [pre] and [post]. *)
Definition occurs_between (pre post : list ascii) (t s : string) : Prop :=
  chars s = pre ++ chars t ++ post.

Definition occurs_in (t s : string) : Prop :=
  ∃ pre post, occurs_between pre post t s.

(** The string [t] occurs in [s] as a whole word: no word character comes
    just before or just after it. *)
Definition whole_word_in (t s : string) : Prop :=
  ∃ pre post,
    occurs_between pre post t s
    ∧ (∀ c, last pre = Some c → is_word c = false)
    ∧ (∀ c, head post = Some c → is_word c = false).

(** The part of a template before its first [{}], and the part after. *)
Fixpoint before_slot (template : string) : string :=
  match template with
  | EmptyString => EmptyString
  | String c t =>
      match c, t with
      | "{"%char, String "}"%char _ => EmptyString
      | _, _ => String c (before_slot t)
      end
  end.

Fixpoint after_slot (template : string) : string :=
  match template with
  | EmptyString => EmptyString
  | String c t =>
      match c, t with
      | "{"%char, String "}"%char t' => t'
      | _, _ => after_slot t
      end
  end.

(** What essay question [i] (from 0) has to be: a prompt filled with key
    term [i] when there is one, the generic prompt otherwise. *)
Definition essay_at (key_terms : list string) (i : nat) (e : string) : Prop :=
  match key_terms !! i with
  | Some term =>
      ∃ p, p ∈ essay_prompts
           ∧ e = "Essay Question " +:+ of_nat (i + 1) +:+ ": "
                 +:+ before_slot p +:+ term +:+ after_slot p
  | None => e = generic_essay (i + 1)
  end.

(** The generator [g'] is [g] after [n] more draws. *)
Definition after_draws (n : nat) (g g' : Rng) : Prop :=
  draws g' = draws g ∧ pos g' = pos g + n.

(** No [E] is followed by an [s]. *)
Fixpoint no_Es (s : list ascii) : bool :=
  match s with
  | [] => true
  | c :: s' =>
      match s' with
      | d :: _ => negb (Ascii.eqb c "E" && Ascii.eqb d "s") && no_Es s'
      | [] => true
      end
  end.

Definition digits_text : string := "12345 !!".

Definition short_sentences : string :=
  "Cats are mammals. Cats are mammals. Cats are mammals. Dogs are mammals too.".

End Props.

Import Display Props.


(** ** Strings and characters *)

Section strings.

Lemma chars_str l : chars (str l) = l.
Proof. apply list_ascii_of_string_of_list_ascii. Qed.

Lemma str_chars s : str (chars s) = s.
Proof. apply string_of_list_ascii_of_string. Qed.

Lemma length_str l : String.length (str l) = length l.
Proof. induction l; simpl; congruence. Qed.

Lemma eqb_true_iff (a b : string) : String.eqb a b = true ↔ a = b.
Proof. apply String.eqb_eq. Qed.

Lemma eqb_false_iff (a b : string) : String.eqb a b = false ↔ a ≠ b.
Proof. apply String.eqb_neq. Qed.

(** Lowering leaves no capital of the class [[A-Z]]. *)
Lemma lower_char_not_upper c : is_upper_az (lower_char c) = false.
Proof. by destruct c as [[] [] [] [] [] [] [] []]. Qed.

Lemma az_not_upper_lower c :
  is_az c = true → is_upper_az c = false → is_lower_az c = true.
Proof. unfold is_az. intros H Hu. by rewrite Hu in H. Qed.

Lemma take_while_Forall {A} (p : A → bool) (Q : A → Prop) l :
  Forall Q l → Forall (λ x, Q x ∧ p x = true) (take_while p l).
Proof.
  induction 1 as [|x l Hx Hl IH]; simpl; [constructor|].
  destruct (p x) eqn:Hp; constructor; auto.
Qed.

Lemma findall_go_cons prev c s :
  findall_go prev (c :: s)
  = if word_boundary prev (Some c)
       && (3 <=? length (take_while is_az (c :: s)))
       && word_boundary (last (take_while is_az (c :: s)))
            (head (drop (length (take_while is_az (c :: s))) (c :: s)))
    then str (take_while is_az (c :: s)) :: findall_go (Some c) s
    else findall_go (Some c) s.
Proof. reflexivity. Qed.

(** Every token is a run of at least 3 letters of the scanned text. *)
Lemma findall_go_tokens (Q : ascii → Prop) prev s t :
  Forall Q s → t ∈ findall_go prev s →
  3 ≤ String.length t ∧ Forall (λ c, Q c ∧ is_az c = true) (chars t).
Proof.
  intros Hs. revert prev.
  induction Hs as [|c s Hc Hs IH]; intros prev;
    [by intros ?%elem_of_nil|].
  rewrite findall_go_cons.
  destruct (word_boundary prev (Some c) && _ && _) eqn:Hm; [|by apply IH].
  intros [->|Hin]%elem_of_cons; [|by eapply IH].
  apply andb_prop in Hm as [[_ Hlen]%andb_prop _].
  apply Nat.leb_le in Hlen.
  rewrite length_str, chars_str. split; [done|].
  apply take_while_Forall. by constructor.
Qed.

Lemma findall_words_lower_term text t :
  t ∈ findall_words (lower text) → is_term t.
Proof.
  unfold findall_words, lower. rewrite chars_str. intros Hin.
  apply (findall_go_tokens (λ c, is_upper_az c = false)) in Hin as [Hlen Hall].
  - split; [done|]. eapply Forall_impl; [exact Hall|].
    intros c [??]. by apply az_not_upper_lower.
  - apply Forall_fmap, Forall_forall. intros c _. apply lower_char_not_upper.
Qed.

End strings.

(** ** Sentences *)

Section sentences.

Lemma foldl_sentence_step acc l :
  foldl sentence_step acc l
  = acc ++ filter (λ s, 5 ≤ length (split s)) (strip <$> l).
Proof.
  revert acc. induction l as [|x l IH]; intros acc; simpl.
  - by rewrite app_nil_r.
  - rewrite IH. unfold sentence_step. rewrite filter_cons.
    destruct (decide (5 ≤ length (split (strip x)))); [|done].
    by rewrite <-app_assoc.
Qed.

Lemma drop_while_suffix {A} (p : A → bool) l : drop_while p l `suffix_of` l.
Proof.
  induction l as [|x l IH]; simpl; [done|].
  destruct (p x); [by apply suffix_cons_r|done].
Qed.

Lemma drop_while_head {A} (p : A → bool) l c :
  head (drop_while p l) = Some c → p c = false.
Proof.
  induction l as [|x l IH]; simpl; [done|].
  destruct (p x) eqn:Hx; [done|]. simpl. by intros [= <-].
Qed.

Lemma drop_while_Forall {A} (p : A → bool) (P : A → Prop) l :
  Forall P l → Forall P (drop_while p l).
Proof.
  induction 1 as [|x l Hx Hl IH]; simpl; [done|].
  destruct (p x); [done|by constructor].
Qed.

(** A stripped string neither starts nor ends with whitespace. *)
Lemma strip_trimmed s c :
  head (chars (strip s)) = Some c ∨ last (chars (strip s)) = Some c →
  isspace c = false.
Proof.
  unfold strip. rewrite chars_str.
  set (inner := drop_while isspace (chars s)).
  set (outer := drop_while isspace (reverse inner)).
  intros [Hhead|Hlast].
  - assert (reverse outer `prefix_of` inner) as Hpre.
    { rewrite <-(reverse_involutive inner). apply suffix_prefix_reverse.
      apply drop_while_suffix. }
    destruct (reverse outer) as [|y l]; [done|]. simpl in Hhead.
    injection Hhead as ->. destruct Hpre as [k Hk].
    apply (drop_while_head isspace (chars s)). fold inner. by rewrite Hk.
  - rewrite last_reverse in Hlast. by eapply drop_while_head.
Qed.

(** Stripping keeps what holds of all the characters. *)
Lemma strip_Forall (P : ascii → Prop) s :
  Forall P (chars s) → Forall P (chars (strip s)).
Proof.
  intros H. unfold strip. rewrite chars_str.
  apply Forall_reverse, drop_while_Forall, Forall_reverse.
  by apply drop_while_Forall.
Qed.

(** The fragments of [re_split] hold no delimiter. *)
Lemma re_split_go_no_delim frag in_run l s :
  Forall (λ c, is_delim c = false) frag →
  s ∈ re_split_go frag in_run l →
  Forall (λ c, is_delim c = false) (chars s).
Proof.
  revert frag in_run. induction l as [|c l IH]; intros frag in_run Hf; simpl.
  - intros ->%list_elem_of_singleton. by rewrite chars_str.
  - destruct (is_delim c) eqn:Hc.
    + destruct in_run.
      * by apply IH.
      * intros [->|Hin]%elem_of_cons; [by rewrite chars_str|].
        by apply (IH [] true).
    + apply IH. apply Forall_app. split; [done|]. by repeat constructor.
Qed.

End sentences.

(** ** The frequency dictionary *)

Section dictionary.

Lemma tabulate_ext f g D :
  (∀ k, k ∈ D → f k = g k) → tabulate f D = tabulate g D.
Proof.
  intros H. unfold tabulate. apply list_fmap_ext. intros i k Hk.
  f_equal. apply H. by eapply list_elem_of_lookup_2.
Qed.

Lemma dict_get_tabulate f D k :
  dict_get (tabulate f D) k 0 = if bool_decide (k ∈ D) then f k else 0.
Proof.
  induction D as [|k' D IH]; simpl; [done|].
  destruct (String.eqb k' k) eqn:E.
  - apply eqb_true_iff in E as ->. by rewrite bool_decide_eq_true_2 by left.
  - apply eqb_false_iff in E. rewrite IH.
    destruct (bool_decide (k ∈ D)) eqn:E1.
    + apply bool_decide_eq_true in E1.
      by rewrite bool_decide_eq_true_2 by (by right).
    + apply bool_decide_eq_false in E1.
      rewrite bool_decide_eq_false_2; [done|].
      intros [?|?]%elem_of_cons; congruence.
Qed.

Lemma dict_set_tabulate_new f D k v :
  k ∉ D → dict_set (tabulate f D) k v = tabulate f D ++ [(k, v)].
Proof.
  induction D as [|k' D IH]; simpl; [done|].
  intros [Hne Hnin]%not_elem_of_cons.
  destruct (String.eqb k' k) eqn:E.
  - apply eqb_true_iff in E. congruence.
  - by rewrite IH.
Qed.

Lemma dict_set_tabulate_old f D k v :
  NoDup D → k ∈ D →
  dict_set (tabulate f D) k v
  = tabulate (λ x, if bool_decide (x = k) then v else f x) D.
Proof.
  induction 1 as [|k' D Hnin Hnd IH]; simpl; [by intros ?%elem_of_nil|].
  intros Hin. destruct (String.eqb k' k) eqn:E.
  - apply eqb_true_iff in E as ->.
    rewrite bool_decide_eq_true_2 by done. f_equal.
    apply tabulate_ext. intros x Hx.
    rewrite bool_decide_eq_false_2; [done|]. congruence.
  - apply eqb_false_iff in E.
    rewrite bool_decide_eq_false_2 by done. f_equal.
    apply IH. apply elem_of_cons in Hin as [?|?]; congruence.
Qed.

Lemma filter_tabulate (P : nat → Prop) f D
    `{∀ it : string * nat, Decision (P it.2)} `{∀ k, Decision (P (f k))} :
  (filter (λ it, P it.2) (tabulate f D)).*1 = filter (λ k, P (f k)) D.
Proof.
  unfold tabulate. induction D as [|k D IH]; [done|].
  rewrite fmap_cons. destruct (decide (P (f k))).
  - rewrite (filter_cons_True (λ it : string * nat, P it.2)) by done.
    rewrite filter_cons_True by done. simpl. by rewrite <-IH.
  - rewrite (filter_cons_False (λ it : string * nat, P it.2)) by done.
    by rewrite filter_cons_False by done.
Qed.

End dictionary.

(** ** Counting words *)

Section counting.

Lemma discovery_order_snoc ws w :
  discovery_order (ws ++ [w])
  = if bool_decide (w ∈ discovery_order ws) then discovery_order ws
    else discovery_order ws ++ [w].
Proof. unfold discovery_order. by rewrite foldl_app. Qed.

Lemma elem_of_discovery_order ws w : w ∈ discovery_order ws ↔ w ∈ ws.
Proof.
  induction ws as [|x ws IH] using rev_ind; [done|].
  rewrite discovery_order_snoc, elem_of_app, list_elem_of_singleton.
  case_bool_decide as Hx.
  - rewrite IH. split; [tauto|]. intros [?| ->]; [done|]. by apply IH.
  - by rewrite elem_of_app, list_elem_of_singleton, IH.
Qed.

Lemma NoDup_discovery_order ws : NoDup (discovery_order ws).
Proof.
  induction ws as [|x ws IH] using rev_ind; [constructor|].
  rewrite discovery_order_snoc. case_bool_decide as Hx; [done|].
  apply NoDup_app. split_and!; [done| |apply NoDup_singleton].
  intros y Hy ->%list_elem_of_singleton. done.
Qed.

Lemma frequency_snoc ws w x :
  frequency (ws ++ [w]) x
  = frequency ws x + (if bool_decide (w = x) then 1 else 0).
Proof.
  unfold frequency. rewrite filter_app, length_app. f_equal.
  rewrite filter_cons, filter_nil. case_bool_decide; by case_decide.
Qed.

Lemma frequency_absent ws w : w ∉ ws → frequency ws w = 0.
Proof.
  intros Hw. unfold frequency.
  destruct (filter (λ x, x = w) ws) as [|y l] eqn:E; [done|].
  assert (y ∈ filter (λ x, x = w) ws) as [-> ?]%list_elem_of_filter
    by (rewrite E; left). done.
Qed.

Lemma frequency_present ws w : w ∈ ws → 1 ≤ frequency ws w.
Proof.
  intros Hw. unfold frequency.
  assert (w ∈ filter (λ x, x = w) ws) as Hin by by apply list_elem_of_filter.
  destruct (filter (λ x, x = w) ws); [by apply elem_of_nil in Hin|simpl; lia].
Qed.

(** One more occurrence of [w] counted in the dictionary of [qs]. *)
Lemma count_one_more qs w :
  let d := tabulate (frequency qs) (discovery_order qs) in
  dict_set d w (dict_get d w 0 + 1)
  = tabulate (frequency (qs ++ [w])) (discovery_order (qs ++ [w])).
Proof.
  intros d. subst d. rewrite dict_get_tabulate, discovery_order_snoc.
  case_bool_decide as Hw.
  - rewrite dict_set_tabulate_old by auto using NoDup_discovery_order.
    apply tabulate_ext. intros k _. rewrite frequency_snoc.
    case_bool_decide as E1; case_bool_decide as E2; subst; try done; lia.
  - rewrite dict_set_tabulate_new by done.
    unfold tabulate at 2. rewrite fmap_app. simpl. f_equal.
    + apply tabulate_ext. intros k Hk. rewrite frequency_snoc.
      rewrite bool_decide_eq_false_2; [lia|]. by intros ->.
    + rewrite frequency_snoc, bool_decide_eq_true_2 by done.
      rewrite frequency_absent; [done|]. by rewrite <-elem_of_discovery_order.
Qed.

(** The dictionary built by the counting loop. *)
Lemma count_words_tabulate ws :
  let qs := filter (λ w, w ∉ common_words) ws in
  count_words ws = tabulate (frequency qs) (discovery_order qs).
Proof.
  induction ws as [|w ws IH] using rev_ind; [done|].
  simpl in *. unfold count_words in *.
  rewrite foldl_app, filter_app, IH. simpl. unfold count_step.
  rewrite filter_cons, filter_nil. case_bool_decide as Hw.
  - rewrite decide_False by auto. by rewrite app_nil_r.
  - rewrite decide_True by done. apply count_one_more.
Qed.

(** The code computes the key terms of section 4.2. *)
Lemma extract_key_terms_spec text :
  extract_key_terms text = key_terms_spec text.
Proof.
  unfold extract_key_terms, key_terms_spec, qualifying_words.
  rewrite count_words_tabulate. cbv zeta.
  by rewrite (filter_tabulate (λ n, 2 ≤ n) _ _), (filter_tabulate (λ n, n = 1) _ _).
Qed.

End counting.

(** ** First occurrences *)

Section first_occurrence.

Lemma list_index_Some l v i :
  list_index l v = Some i → l !! i = Some v ∧ i < length l.
Proof.
  revert i. induction l as [|x l IH]; intros i; simpl; [done|].
  destruct (String.eqb x v) eqn:E.
  - apply eqb_true_iff in E as ->. intros [= <-]. simpl. split; [done|lia].
  - destruct (list_index l v) as [k|]; [|done].
    intros [= <-]. destruct (IH k eq_refl). simpl. split; [done|lia].
Qed.

Lemma list_index_elem l v : v ∈ l → is_Some (list_index l v).
Proof.
  induction 1 as [x l|x y l Hin IH]; simpl.
  - by rewrite String.eqb_refl.
  - destruct (String.eqb y x); [done|]. by destruct IH as [k ->].
Qed.

Lemma list_index_app_l l k v i :
  list_index l v = Some i → list_index (l ++ k) v = Some i.
Proof.
  revert i. induction l as [|x l IH]; intros i; simpl; [done|].
  destruct (String.eqb x v); [done|].
  destruct (list_index l v) as [j|]; [|done].
  intros [= <-]. by rewrite (IH j).
Qed.

Lemma list_index_fresh l v :
  v ∉ l → list_index (l ++ [v]) v = Some (length l).
Proof.
  induction l as [|x l IH]; simpl; [by rewrite String.eqb_refl|].
  intros [Hne Hnin]%not_elem_of_cons.
  destruct (String.eqb x v) eqn:E; [apply eqb_true_iff in E; congruence|].
  by rewrite IH.
Qed.

(** Two entries of a list, in their order, form a sublist of it. *)
Lemma lookup_pair_sublist {A} (l : list A) i j a b :
  i < j → l !! i = Some a → l !! j = Some b → [a; b] `sublist_of` l.
Proof.
  intros Hij Hi Hj.
  rewrite <-(take_drop_middle l i a Hi).
  apply sublist_inserts_l. constructor.
  assert (drop (S i) l !! (j - S i) = Some b) as Hb.
  { rewrite lookup_drop. by replace (S i + (j - S i)) with j by lia. }
  rewrite <-(take_drop_middle _ _ _ Hb).
  apply sublist_inserts_l. constructor. apply sublist_nil_l.
Qed.

(** The discovery order is the order of first occurrences. *)
Lemma discovery_order_seen_before ws a b :
  [a; b] `sublist_of` discovery_order ws → seen_before ws a b.
Proof.
  induction ws as [|w ws IH] using rev_ind.
  - intros H%sublist_nil_r. done.
  - rewrite discovery_order_snoc.
    assert (seen_before ws a b → seen_before (ws ++ [w]) a b) as Hmono.
    { intros (pa & pb & Ha & Hb & Hlt). exists pa, pb.
      unfold first_seen in *. split_and!; auto using list_index_app_l. }
    case_bool_decide as Hw; [by auto|].
    intros (l1 & l2 & Heq & H1 & H2)%sublist_app_r.
    apply sublist_cons_r in H2 as [H2%sublist_nil_r|(l' & -> & H2%sublist_nil_r)];
      subst.
    + rewrite app_nil_r in Heq. subst l1. auto.
    + destruct l1 as [|x [|y l1]]; simplify_eq/=; [|by destruct l1].
      assert (x ∈ ws) as Ha.
      { apply elem_of_discovery_order. eapply elem_of_sublist; [|done]. left. }
      apply (list_index_elem _ _) in Ha as [pa Ha].
      exists pa, (length ws). unfold first_seen.
      split_and!.
      * by apply list_index_app_l.
      * apply list_index_fresh. by rewrite <-elem_of_discovery_order.
      * by apply list_index_Some in Ha as [_ ?].
Qed.

Lemma sublist_filter_inv {A} (P : A → Prop) `{∀ x, Decision (P x)} l k :
  l `sublist_of` filter P k → l `sublist_of` k ∧ Forall P l.
Proof.
  intros Hl. split.
  - etrans; [done|]. apply sublist_filter.
  - apply Forall_forall. intros x Hx.
    eapply elem_of_sublist in Hx; [|done].
    by apply list_elem_of_filter in Hx as [? _].
Qed.

(** The key terms are a sublist of the frequent words followed by the
    words seen once. *)
Lemma key_terms_spec_sublist text :
  let ws := qualifying_words text in
  key_terms_spec text
    `sublist_of` filter (λ w, 2 ≤ frequency ws w) (discovery_order ws)
                 ++ filter (λ w, frequency ws w = 1) (discovery_order ws).
Proof.
  intros ws. unfold key_terms_spec. fold ws.
  etrans; [apply sublist_take|]. cbv zeta. case_decide.
  - apply sublist_app; [done|apply sublist_take].
  - by apply sublist_inserts_r.
Qed.

Lemma key_terms_spec_tiered text :
  tiered_by_discovery (qualifying_words text) (key_terms_spec text).
Proof.
  intros i j a b Hij Hi Hj.
  pose proof (lookup_pair_sublist _ _ _ _ _ Hij Hi Hj) as Hab.
  pose proof (key_terms_spec_sublist text) as Hsub. simpl in Hsub.
  assert (Hab' := transitivity Hab Hsub). clear Hab Hsub Hi Hj.
  apply sublist_app_r in Hab' as (l1 & l2 & Heq & H1 & H2).
  apply sublist_filter_inv in H1 as [H1 F1], H2 as [H2 F2].
  assert ((l1 = [] ∧ l2 = [a; b]) ∨ (l1 = [a] ∧ l2 = [b])
          ∨ (l1 = [a; b] ∧ l2 = [])) as [[-> ->]|[[-> ->]|[-> ->]]]
    by (destruct l1 as [|x [|y [|z l1]]]; simplify_eq/=; auto).
  - apply Forall_cons in F2 as [Fa [Fb _]%Forall_cons].
    split; [lia|]. intros _. by apply discovery_order_seen_before.
  - apply Forall_cons in F1 as [Fa _], F2 as [Fb _].
    split; [done|]. intros [Hab _]. specialize (Hab Fa). lia.
  - apply Forall_cons in F1 as [Fa [Fb _]%Forall_cons].
    split; [done|]. intros _. by apply discovery_order_seen_before.
Qed.

Lemma key_terms_spec_members text t :
  t ∈ key_terms_spec text → t ∈ qualifying_words text.
Proof.
  intros Ht. eapply elem_of_sublist in Ht; [|apply key_terms_spec_sublist].
  apply elem_of_discovery_order.
  by apply elem_of_app in Ht as [[_ ?]%list_elem_of_filter|[_ ?]%list_elem_of_filter].
Qed.

Lemma key_terms_spec_NoDup text : NoDup (key_terms_spec text).
Proof.
  eapply sublist_NoDup; [|apply key_terms_spec_sublist].
  apply NoDup_app. split_and!.
  - apply NoDup_filter, NoDup_discovery_order.
  - intros x [H2 _]%list_elem_of_filter [H1 _]%list_elem_of_filter. lia.
  - apply NoDup_filter, NoDup_discovery_order.
Qed.

End first_occurrence.

(** ** Draws, choices and shuffles *)

Section random.

Lemma bind_Ok {A B} (m : M A) (k : A → M B) g a g' :
  m g = Ok (a, g') → (m ≫= k) g = k a g'.
Proof. unfold mbind, M_bind, bind. by intros ->. Qed.

Lemma bind_bind {A B C} (m : M A) (k : A → M B) (h : B → M C) g :
  ((m ≫= k) ≫= h) g = (m ≫= λ a, k a ≫= h) g.
Proof. unfold mbind, M_bind, bind. by destruct (m g) as [[a g']|]. Qed.

Lemma ret_bind {A B} (a : A) (k : A → M B) g : (ret a ≫= k) g = k a g.
Proof. reflexivity. Qed.

Lemma randbelow_Ok n g :
  0 < n → ∃ i g', randbelow n g = Ok (i, g') ∧ i < n.
Proof.
  intros Hn. eexists _, _. split; [reflexivity|].
  apply Nat.mod_upper_bound. lia.
Qed.

Lemma index_at_Ok {A} (l : list A) i x g :
  l !! i = Some x → index_at l i g = Ok (x, g).
Proof. unfold index_at. by intros ->. Qed.

Lemma index_at_lt {A} (l : list A) i g :
  i < length l → ∃ x, index_at l i g = Ok (x, g) ∧ l !! i = Some x.
Proof.
  intros [x Hx]%lookup_lt_is_Some. exists x. split; [|done].
  by apply index_at_Ok.
Qed.

(** A choice from a list that is not empty returns one of its members. *)
Lemma choice_Ok {A} (l : list A) g :
  l ≠ [] → ∃ x g', choice l g = Ok (x, g') ∧ x ∈ l.
Proof.
  intros Hl. destruct l as [|y l]; [done|].
  unfold choice.
  destruct (randbelow_Ok (length (y :: l)) g) as (i & g' & Hr & Hi);
    [simpl; lia|].
  destruct (index_at_lt (y :: l) i g' Hi) as (x & Hx & Hlook).
  exists x, g'. split; [|by eapply list_elem_of_lookup_2].
  by rewrite (bind_Ok _ _ _ _ _ Hr).
Qed.

Lemma swap_Permutation {A} (x : list A) i j a b :
  x !! j = Some a → x !! i = Some b → <[j:=b]> (<[i:=a]> x) ≡ₚ x.
Proof.
  intros Hj Hi.
  pose proof (lookup_lt_Some _ _ _ Hj). pose proof (lookup_lt_Some _ _ _ Hi).
  apply Permutation_inj. split; [by rewrite !length_insert|].
  exists (λ k, if decide (k = j) then i else if decide (k = i) then j else k).
  split.
  - intros k1 k2. repeat case_decide; intros; subst; congruence.
  - intros k. rewrite !list_lookup_insert, !length_insert.
    repeat case_decide; destruct_and?; subst; try done; try lia; congruence.
Qed.

Lemma swap_Ok {A} (x : list A) i j g :
  i < length x → j < length x →
  ∃ x', swap x i j g = Ok (x', g) ∧ x' ≡ₚ x.
Proof.
  intros Hi Hj. unfold swap.
  destruct (index_at_lt x j g Hj) as (a & Ha & Hla).
  destruct (index_at_lt x i g Hi) as (b & Hb & Hlb).
  rewrite (bind_Ok _ _ _ _ _ Ha), (bind_Ok _ _ _ _ _ Hb).
  eexists. split; [reflexivity|]. by apply swap_Permutation.
Qed.

Lemma shuffle_from_Ok {A} i (x : list A) g :
  i < length x ∨ i = 0 →
  ∃ x' g', shuffle_from i x g = Ok (x', g') ∧ x' ≡ₚ x.
Proof.
  revert x g. induction i as [|i IH]; intros x g Hi; simpl.
  - by exists x, g.
  - destruct Hi as [Hi|?]; [|done].
    destruct (randbelow_Ok (S (S i)) g) as (j & g1 & Hr & Hj); [lia|].
    rewrite (bind_Ok _ _ _ _ _ Hr).
    destruct (swap_Ok x (S i) j g1) as (x1 & Hs & Hp); [lia..|].
    rewrite (bind_Ok _ _ _ _ _ Hs).
    destruct (IH x1 g1) as (x2 & g2 & Hx2 & Hp2).
    { left. rewrite (Permutation_length Hp). lia. }
    exists x2, g2. split; [done|]. by etrans.
Qed.

(** A shuffle returns a permutation of its argument. *)
Lemma shuffle_Ok {A} (x : list A) g :
  ∃ x' g', shuffle x g = Ok (x', g') ∧ x' ≡ₚ x.
Proof.
  apply shuffle_from_Ok. destruct x; simpl; [by right|left; lia].
Qed.

Lemma index_of_Ok l v g :
  v ∈ l → ∃ i, index_of l v g = Ok (i, g) ∧ list_index l v = Some i.
Proof.
  intros [i Hi]%list_index_elem. exists i. unfold index_of. by rewrite Hi.
Qed.

Lemma choice_or_Ok key_terms fallback g :
  key_terms ≠ [] →
  ∃ x g', choice_or key_terms fallback g = Ok (x, g') ∧ x ∈ key_terms.
Proof.
  intros Hk. destruct key_terms as [|k l]; [done|]. by apply choice_Ok.
Qed.

End random.

(** ** Multiple-choice questions *)

Section multiple_choice.

Lemma mc_step_generic key_terms sentences acc i g :
  in_bounds key_terms sentences i = false →
  mc_step key_terms sentences acc i g = Ok (acc ++ [generic_question], g).
Proof. unfold in_bounds, mc_step. by intros ->. Qed.

Lemma mc_step_built key_terms sentences acc i g :
  in_bounds key_terms sentences i = true →
  ∃ q g', mc_step key_terms sentences acc i g = Ok (acc ++ [q], g')
          ∧ built_from key_terms i q.
Proof.
  unfold in_bounds, mc_step. intros Hb. rewrite Hb.
  apply andb_prop in Hb as [Hk%bool_decide_eq_true Hs%bool_decide_eq_true].
  rewrite (bool_decide_eq_true_2 _ Hs).
  assert (key_terms ≠ []) as Hne by (intros ->; simpl in Hk; lia).
  destruct (index_at_lt key_terms i g Hk) as (term & Ht & Hterm).
  destruct (index_at_lt sentences i g Hs) as (ctx & Hc & _).
  destruct (choice_Ok question_starters g) as (starter & g1 & Hst & Hin);
    [done|].
  destruct (choice_or_Ok key_terms "general topic" g1 Hne)
    as (a & g2 & Ha & Hain).
  destruct (choice_or_Ok key_terms "another topic" g2 Hne)
    as (b & g3 & Hb & Hbin).
  destruct (choice_or_Ok key_terms "different subject" g3 Hne)
    as (c & g4 & Hc' & Hcin).
  destruct (shuffle_Ok (options_of term a b c) g4) as (opts & g5 & Hsh & Hp).
  destruct (index_of_Ok opts (correct_text term) g5) as (idx & Hidx & Hli).
  { rewrite Hp. left. }
  rewrite (bind_Ok _ _ _ _ _ Ht), (bind_Ok _ _ _ _ _ Hc),
    (bind_Ok _ _ _ _ _ Hst), (bind_Ok _ _ _ _ _ Ha), (bind_Ok _ _ _ _ _ Hb),
    (bind_Ok _ _ _ _ _ Hc').
  change [correct_text term; "Unrelated concept A about " +:+ a;
          "Unrelated concept B about " +:+ b;
          "Unrelated concept C about " +:+ c]
    with (options_of term a b c).
  rewrite (bind_Ok _ _ _ _ _ Hsh), (bind_Ok _ _ _ _ _ Hidx).
  eexists _, g5. split; [reflexivity|].
  exists term, starter, a, b, c, idx. by split_and!.
Qed.

Lemma mc_step_Ok key_terms sentences acc i g :
  ∃ q g', mc_step key_terms sentences acc i g = Ok (acc ++ [q], g')
          ∧ question_at key_terms sentences i q.
Proof.
  unfold question_at. destruct (in_bounds key_terms sentences i) eqn:Hb.
  - by apply mc_step_built.
  - exists generic_question, g. split; [|done]. by apply mc_step_generic.
Qed.

(** The loop makes three questions, one for each of the indices 0, 1, 2. *)
Lemma generate_multiple_choice_Ok text key_terms sentences g :
  ∃ q0 q1 q2 g', generate_multiple_choice text key_terms sentences g
                 = Ok ([q0; q1; q2], g')
    ∧ question_at key_terms sentences 0 q0
    ∧ question_at key_terms sentences 1 q1
    ∧ question_at key_terms sentences 2 q2.
Proof.
  unfold generate_multiple_choice. simpl.
  destruct (mc_step_Ok key_terms sentences [] 0 g) as (q0 & g0 & H0 & Q0).
  destruct (mc_step_Ok key_terms sentences [q0] 1 g0) as (q1 & g1 & H1 & Q1).
  destruct (mc_step_Ok key_terms sentences [q0; q1] 2 g1)
    as (q2 & g2 & H2 & Q2).
  exists q0, q1, q2, g2. split; [|done].
  rewrite (bind_Ok _ _ _ _ _ H0). simpl.
  rewrite (bind_Ok _ _ _ _ _ H1). simpl.
  by rewrite (bind_Ok _ _ _ _ _ H2).
Qed.

Lemma letter_index_chr idx : idx < 4 → letter_index (chr (65 + idx)) = Some idx.
Proof. intros H. by do 4 (destruct idx as [|idx]; [done|]); lia. Qed.

Lemma options_of_NoDup term a b c : NoDup (options_of term a b c).
Proof.
  unfold options_of, correct_text.
  repeat (apply NoDup_cons; split); [..|apply NoDup_nil_2];
    rewrite ?not_elem_of_cons; split_and?; try apply not_elem_of_nil;
    intros H;
    first [ apply (f_equal (String.get 0)) in H; simpl in H; discriminate
          | apply (f_equal (String.get 18)) in H; simpl in H; discriminate ].
Qed.

(** What a question built on a term guarantees about its options. *)
Lemma built_from_options key_terms i q :
  built_from key_terms i q →
  ∃ term idx,
    key_terms !! i = Some term
    ∧ length (options q) = 4
    ∧ NoDup (options q)
    ∧ options q !! idx = Some (correct_text term)
    ∧ letter_index (correct_answer q) = Some idx.
Proof.
  intros (term & starter & a & b & c & idx & Ht & _ & _ & _ & _ & Hp & Hidx
          & _ & Hca & _).
  apply list_index_Some in Hidx as [Hlook Hlt].
  assert (length (options q) = 4) as Hlen by by rewrite Hp.
  exists term, idx. split_and!; try done.
  - rewrite Hp. apply options_of_NoDup.
  - rewrite Hca. apply letter_index_chr. lia.
Qed.

Lemma for_each_ext {A S} (xs : list A) (f h : S → A → M S) s g :
  (∀ s x g, f s x g = h s x g) → for_each xs f s g = for_each xs h s g.
Proof.
  intros Hfh. revert s g. induction xs as [|x xs IH]; intros s g; [done|].
  simpl. unfold mbind, M_bind, bind. rewrite Hfh.
  destruct (h s x g) as [[s' g']|]; [apply IH|done].
Qed.

(** A step reads the sentences only for their number. *)
Lemma mc_step_sentences key_terms s1 s2 acc i g :
  length s1 = length s2 →
  mc_step key_terms s1 acc i g = mc_step key_terms s2 acc i g.
Proof.
  intros Hlen. unfold mc_step. rewrite Hlen.
  destruct (bool_decide (i < length key_terms)); [|done].
  destruct (bool_decide (i < length s2)) eqn:Hs; [|done]. simpl.
  apply bool_decide_eq_true in Hs.
  unfold mbind, M_bind, bind.
  destruct (index_at key_terms i g) as [[term g1]|]; [|done].
  destruct (index_at_lt s1 i g1) as (c1 & -> & _); [lia|].
  by destruct (index_at_lt s2 i g1) as (c2 & -> & _).
Qed.

End multiple_choice.

(** ** Essay questions *)

Section essay.

Lemma fill_generic_full q1 q2 l :
  fill_generic (q1 :: q2 :: l) = q1 :: q2 :: l.
Proof. by rewrite fill_generic_equation_1. Qed.

Lemma fill_generic_one q : fill_generic [q] = [q; generic_essay 2].
Proof.
  rewrite fill_generic_equation_1. simpl. apply fill_generic_full.
Qed.

Lemma fill_generic_none :
  fill_generic [] = [generic_essay 1; generic_essay 2].
Proof.
  rewrite fill_generic_equation_1. simpl. apply fill_generic_one.
Qed.

Lemma essay_step_Ok acc i term g :
  ∃ body g', essay_step acc (i, term) g
             = Ok (acc ++ ["Essay Question " +:+ of_nat (i + 1) +:+ ": "
                             +:+ body], g').
Proof.
  destruct (choice_Ok essay_prompts g) as (p & g' & Hp & _); [done|].
  exists (format p term), g'. unfold essay_step.
  by rewrite (bind_Ok _ _ _ _ _ Hp).
Qed.

(** Two essay questions, labelled 1 and 2, whatever the key terms. *)
Lemma generate_essay_questions_Ok text key_terms g :
  ∃ b1 b2 g', generate_essay_questions text key_terms g
              = Ok ([ "Essay Question 1: " +:+ b1;
                      "Essay Question 2: " +:+ b2 ], g').
Proof.
  unfold generate_essay_questions.
  set (sel := take 2 _).
  assert (length sel ≤ 2) as Hlen by (subst sel; rewrite length_take; lia).
  destruct sel as [|t1 [|t2 [|t3 sel]]]; simpl in Hlen; [| | |lia].
  - exists generic_body, generic_body, g.
    change (Ok (fill_generic [], g) = Ok ([generic_essay 1; generic_essay 2], g)).
    by rewrite fill_generic_none.
  - destruct (essay_step_Ok [] 0 t1 g) as (b1 & g1 & H1).
    exists b1, generic_body, g1.
    change (((essay_step [] (0, t1) ≫= λ s, ret s)
               ≫= λ qs, ret (fill_generic qs)) g
            = Ok (["Essay Question 1: " +:+ b1; generic_essay 2], g1)).
    rewrite bind_bind, (bind_Ok _ _ _ _ _ H1), ret_bind, app_nil_l.
    change (Ok (fill_generic ["Essay Question 1: " +:+ b1], g1)
            = Ok (["Essay Question 1: " +:+ b1; generic_essay 2], g1)).
    by rewrite fill_generic_one.
  - destruct (essay_step_Ok [] 0 t1 g) as (b1 & g1 & H1).
    destruct (essay_step_Ok ([] ++ ["Essay Question " +:+ of_nat (0 + 1)
                                      +:+ ": " +:+ b1]) 1 t2 g1)
      as (b2 & g2 & H2).
    exists b1, b2, g2.
    change (((essay_step [] (0, t1)
                ≫= λ s, (essay_step s (1, t2) ≫= λ s', ret s'))
               ≫= λ qs, ret (fill_generic qs)) g
            = Ok (["Essay Question 1: " +:+ b1;
                   "Essay Question 2: " +:+ b2], g2)).
    rewrite bind_bind, (bind_Ok _ _ _ _ _ H1), bind_bind,
      (bind_Ok _ _ _ _ _ H2), ret_bind.
    change (Ok (fill_generic ["Essay Question 1: " +:+ b1;
                              "Essay Question 2: " +:+ b2], g2)
            = Ok (["Essay Question 1: " +:+ b1;
                   "Essay Question 2: " +:+ b2], g2)).
    by rewrite fill_generic_full.
Qed.

End essay.

(** ** The program on the sample inputs *)

Example re_split_runs : re_split "a.b..c!?" = ["a"; "b"; "c"; ""].
Proof. reflexivity. Qed.

Example strip_split_words :
  split (strip "  Is   this a real sentence or not ")
  = ["Is"; "this"; "a"; "real"; "sentence"; "or"; "not"].
Proof. reflexivity. Qed.

Example findall_words_tokens :
  findall_words (lower "Hello abc123 ab the_cat DOGs, wor-ld x")
  = ["hello"; "dogs"; "wor"].
Proof. reflexivity. Qed.

Example extract_key_terms_plants :
  extract_key_terms plants
  = ["plants"; "sunlight"; "use"; "make"; "food"; "need"; "water"; "grow";
     "well"; "animals"].
Proof. vm_compute. reflexivity. Qed.

Example extract_sentences_plants :
  extract_sentences plants
  = ["Plants use sunlight to make food";
     "Plants need water and sunlight to grow well";
     "Animals eat plants to get their energy"].
Proof. vm_compute. reflexivity. Qed.

Example extract_key_terms_pets :
  extract_key_terms pets = ["dogs"; "bark"; "cats"; "purr"].
Proof. vm_compute. reflexivity. Qed.

Example generate_content_plants_first_question :
  ∃ essays q0 q1 q2 g',
    generate_content plants some_draws = Ok ((essays, [q0; q1; q2]), g')
    ∧ pos g' = 23
    ∧ q0 = {| question := "Explain the relationship between plants?";
              options := [ "Unrelated concept C about animals";
                           "Unrelated concept A about sunlight";
                           "Related to plants as mentioned in the context";
                           "Unrelated concept B about need" ];
              correct_answer := "C";
              explanation :=
                "This question focuses on understanding plants in the given context." |}.
Proof. vm_compute. do 5 eexists. split_and!; reflexivity. Qed.

(** ** Sentences: claim C8 *)

(** C8. For every text, [extract_sentences] returns exactly the trimmed
    fragments of the text, split on runs of [.], [!] and [?], that have at
    least 5 whitespace-delimited words: the same fragments, unchanged, in
    their order. No returned sentence has fewer than 5 words, and the
    result can be empty. *)
Theorem extract_sentences_filters_fragments (text : string) :
  extract_sentences text = sentences_spec text
  ∧ extract_sentences text `sublist_of` (strip <$> re_split text)
  ∧ (∀ s, s ∈ strip <$> re_split text →
       s ∈ extract_sentences text ↔ 5 ≤ length (split s))
  ∧ (∀ s, s ∈ extract_sentences text → 5 ≤ length (split s))
  ∧ (∀ s, s ∈ extract_sentences text →
       Forall (λ c, is_delim c = false) (chars s)
       ∧ ∀ c, head (chars s) = Some c ∨ last (chars s) = Some c →
              isspace c = false)
  ∧ extract_sentences "" = [].
Proof.
  assert (extract_sentences text = sentences_spec text) as Heq.
  { unfold extract_sentences, sentences_spec.
    by rewrite foldl_sentence_step, app_nil_l. }
  rewrite Heq. unfold sentences_spec. split_and!.
  - done.
  - apply sublist_filter.
  - intros s Hs. rewrite list_elem_of_filter. tauto.
  - by intros s [? _]%list_elem_of_filter.
  - intros s [_ (f & -> & Hf)%list_elem_of_fmap]%list_elem_of_filter. split.
    + apply strip_Forall. by eapply re_split_go_no_delim.
    + apply strip_trimmed.
  - reflexivity.
Qed.

Lemma extract_sentences_filters_fragments_witness :
  "Plants use sunlight to make food" ∈ extract_sentences plants
  ∧ 5 ≤ length (split "Plants use sunlight to make food").
Proof.
  assert ("Plants use sunlight to make food" ∈ extract_sentences plants) as Hin.
  { vm_compute. left. }
  split; [exact Hin|].
  destruct (extract_sentences_filters_fragments plants)
    as (_ & _ & _ & H & _ & _).
  exact (H _ Hin).
Defined.

(** ** Key terms: claims C3, C4 and C5 *)

(** C3, as stated, fails: on the text [pets] the key terms are "dogs",
    "bark", "cats", "purr", and "dogs", seen twice, comes before "cats",
    seen three times. *)
Lemma extract_key_terms_not_ranked :
  ¬ ranked_by_frequency (qualifying_words pets) (extract_key_terms pets).
Proof.
  intros H.
  destruct (H 0 2 "dogs" "cats") as [Hle _]; [lia|reflexivity..|].
  vm_compute in Hle. lia.
Qed.

(** C3, amended. For every text, the list returned by [extract_key_terms]
    has every term of frequency at least 2 before every term of frequency
    1, and within each of these two groups the terms are in the order in
    which they were first seen. *)
Theorem extract_key_terms_tiered (text : string) :
  tiered_by_discovery (qualifying_words text) (extract_key_terms text).
Proof. rewrite extract_key_terms_spec. apply key_terms_spec_tiered. Qed.

Lemma extract_key_terms_tiered_witness :
  (2 ≤ frequency (qualifying_words pets) "cats" →
   2 ≤ frequency (qualifying_words pets) "dogs")
  ∧ ((2 ≤ frequency (qualifying_words pets) "dogs"
      ↔ 2 ≤ frequency (qualifying_words pets) "cats") →
     seen_before (qualifying_words pets) "dogs" "cats").
Proof.
  apply (extract_key_terms_tiered pets 0 2 "dogs" "cats");
    [lia|reflexivity|reflexivity].
Defined.

(** C4. For every text, [extract_key_terms] takes the non-stopword words of
    frequency at least 2 as primary terms; when there are fewer than 10 of
    them it appends words of frequency 1, in discovery order, until the list
    has 10 entries or no such word is left; the result is cut to at most 15
    terms, and it is empty when the text has no qualifying word. *)
Theorem extract_key_terms_selects (text : string) :
  let ws := qualifying_words text in
  let primary := filter (λ w, 2 ≤ frequency ws w) (discovery_order ws) in
  let pool := filter (λ w, frequency ws w = 1) (discovery_order ws) in
  let padded :=
    if decide (length primary < 10)
    then primary ++ take (10 - length primary) pool else primary in
  extract_key_terms text = take 15 padded
  ∧ (∀ w, w ∈ primary ↔ w ∈ ws ∧ 2 ≤ frequency ws w)
  ∧ (∀ w, w ∈ pool ↔ w ∈ ws ∧ frequency ws w = 1)
  ∧ (length primary < 10 →
     length padded = Nat.min 10 (length primary + length pool))
  ∧ length (extract_key_terms text) ≤ 15
  ∧ (ws = [] → extract_key_terms text = []).
Proof.
  intros ws primary pool padded.
  assert (extract_key_terms text = take 15 padded) as Heq
    by apply extract_key_terms_spec.
  split_and!.
  - done.
  - intros w. subst primary.
    rewrite list_elem_of_filter, elem_of_discovery_order. tauto.
  - intros w. subst pool.
    rewrite list_elem_of_filter, elem_of_discovery_order. tauto.
  - intros Hlt. subst padded. rewrite decide_True by done.
    rewrite length_app, length_take. lia.
  - rewrite Heq, length_take. lia.
  - intros Hws. rewrite Heq. subst padded primary pool. by rewrite Hws.
Qed.

Lemma extract_key_terms_selects_witness :
  extract_key_terms stopwords_only = []
  ∧ length (extract_key_terms plants) = 10.
Proof.
  split.
  - apply (extract_key_terms_selects stopwords_only). reflexivity.
  - destruct (extract_key_terms_selects plants) as (Heq & _ & _ & Hpad & _).
    rewrite Heq, length_take, Hpad; [reflexivity|].
    vm_compute. lia.
Defined.

(** C5. For every text, the list returned by [extract_key_terms] has at
    most 15 entries and no duplicate, and each entry is outside the stopword
    set and is a token of at least 3 letters, all in lower case. *)
Theorem extract_key_terms_well_formed (text : string) :
  length (extract_key_terms text) ≤ 15
  ∧ NoDup (extract_key_terms text)
  ∧ (∀ t, t ∈ extract_key_terms text → (t ∉ common_words) ∧ is_term t).
Proof.
  rewrite extract_key_terms_spec. split_and!.
  - unfold key_terms_spec. rewrite length_take. lia.
  - apply key_terms_spec_NoDup.
  - intros t Ht%key_terms_spec_members.
    apply list_elem_of_filter in Ht as [Hstop Htok]. split; [done|].
    by eapply findall_words_lower_term.
Qed.

Lemma extract_key_terms_well_formed_witness :
  ("sunlight" ∉ common_words) ∧ is_term "sunlight".
Proof.
  apply (extract_key_terms_well_formed plants).
  vm_compute. right. left.
Defined.

(** ** Multiple-choice questions: claims C2, C7, C9 and C10 *)

Lemma question_at_answer key_terms sentences i q :
  question_at key_terms sentences i q →
  length (options q) = 4
  ∧ ∃ k, letter_index (correct_answer q) = Some k
         ∧ options q !! k = Some (intended_answer key_terms sentences i).
Proof.
  unfold question_at, intended_answer.
  destruct (in_bounds key_terms sentences i).
  - intros (term & idx & Ht & Hlen & _ & Hlook & Hletter)%built_from_options.
    split; [done|]. exists idx. by rewrite Ht.
  - intros ->. split; [done|]. by exists 0.
Qed.

Lemma lookup_three {A} (x0 x1 x2 : A) (P : nat → A → Prop) :
  P 0 x0 → P 1 x1 → P 2 x2 → ∀ i x, [x0; x1; x2] !! i = Some x → P i x.
Proof. intros ??? [|[|[|i]]] x ?; simplify_eq/=; done. Qed.

(** C2. Whatever the key terms, the sentences and the draws,
    [generate_multiple_choice] returns questions that each have exactly 4
    options, the option at the index of the answer letter (letter minus
    'A') being the intended answer: the "Related to ..." text of the term
    in the branch on a term, the first generic option otherwise. *)
Theorem mc_letter_indexes_intended_answer
    (text : string) (key_terms sentences : list string) (g : Rng) :
  ∃ qs g',
    generate_multiple_choice text key_terms sentences g = Ok (qs, g')
    ∧ ∀ i q, qs !! i = Some q →
        length (options q) = 4
        ∧ ∃ k, letter_index (correct_answer q) = Some k
               ∧ options q !! k = Some (intended_answer key_terms sentences i).
Proof.
  destruct (generate_multiple_choice_Ok text key_terms sentences g)
    as (q0 & q1 & q2 & g' & Hrun & Q0 & Q1 & Q2).
  exists [q0; q1; q2], g'. split; [done|].
  apply lookup_three; by apply question_at_answer.
Qed.

Lemma mc_letter_indexes_intended_answer_witness :
  ∃ q, length (options q) = 4
       ∧ ∃ k, letter_index (correct_answer q) = Some k
              ∧ options q !! k
                = Some "Related to sunlight as mentioned in the context".
Proof.
  destruct (mc_letter_indexes_intended_answer plants three_terms two_sentences
              some_draws) as (qs & g' & Hrun & Hall).
  vm_compute in Hrun. injection Hrun as <- _.
  eexists. apply (Hall 1). reflexivity.
Defined.

(** C7. For each index 0, 1, 2: when the index is valid in both the key
    terms and the sentences, the question is built from the key term at
    that index, its text being one of the 8 question starters followed by a
    space, the term and a question mark; otherwise it is the fixed generic
    question, whose answer is "A". With 3 key terms and 2 sentences the
    question of index 2 is the generic one; with no key term all three
    are. *)
Theorem mc_question_by_index
    (text : string) (key_terms sentences : list string) (g : Rng) :
  ∃ q0 q1 q2 g',
    generate_multiple_choice text key_terms sentences g = Ok ([q0; q1; q2], g')
    ∧ (∀ i q, [q0; q1; q2] !! i = Some q →
         (in_bounds key_terms sentences i = true → built_from key_terms i q)
         ∧ (in_bounds key_terms sentences i = false → q = generic_question))
    ∧ length question_starters = 8
    ∧ correct_answer generic_question = "A"
    ∧ (length key_terms = 3 → length sentences = 2 → q2 = generic_question)
    ∧ (key_terms = [] →
       q0 = generic_question ∧ q1 = generic_question ∧ q2 = generic_question).
Proof.
  destruct (generate_multiple_choice_Ok text key_terms sentences g)
    as (q0 & q1 & q2 & g' & Hrun & Q0 & Q1 & Q2).
  exists q0, q1, q2, g'. unfold question_at in *. split_and!; try done.
  - apply lookup_three;
      [ destruct (in_bounds key_terms sentences 0)
      | destruct (in_bounds key_terms sentences 1)
      | destruct (in_bounds key_terms sentences 2) ]; by split.
  - intros Hk Hs. unfold in_bounds in Q2. rewrite Hs in Q2.
    by rewrite andb_false_r in Q2.
  - intros ->. by split_and!.
Qed.

Lemma mc_question_by_index_witness :
  ∃ q0 q1 q2 g',
    generate_multiple_choice plants three_terms two_sentences some_draws
    = Ok ([q0; q1; q2], g')
    ∧ built_from three_terms 0 q0
    ∧ q2 = generic_question.
Proof.
  destruct (mc_question_by_index plants three_terms two_sentences some_draws)
    as (q0 & q1 & q2 & g' & Hrun & Hall & _ & _ & Hgen & _).
  exists q0, q1, q2, g'. split_and!.
  - exact Hrun.
  - apply (Hall 0 q0); reflexivity.
  - apply Hgen; reflexivity.
Defined.

(** C9. In every question built on a term, the 4 options are pairwise
    distinct, for all key terms and all draws: the intended answer is
    found at exactly one index, the one of the answer letter. *)
Theorem mc_options_distinct
    (text : string) (key_terms sentences : list string) (g : Rng) :
  ∃ qs g',
    generate_multiple_choice text key_terms sentences g = Ok (qs, g')
    ∧ ∀ i q, qs !! i = Some q → in_bounds key_terms sentences i = true →
        NoDup (options q)
        ∧ ∃ k, letter_index (correct_answer q) = Some k
               ∧ ∀ j, options q !! j
                      = Some (intended_answer key_terms sentences i)
                      ↔ j = k.
Proof.
  destruct (generate_multiple_choice_Ok text key_terms sentences g)
    as (q0 & q1 & q2 & g' & Hrun & Q0 & Q1 & Q2).
  exists [q0; q1; q2], g'. split; [done|].
  refine (lookup_three q0 q1 q2
            (λ i q, in_bounds key_terms sentences i = true → _) _ _ _);
    unfold question_at, intended_answer in *; intros Hb; rewrite Hb in *.
  all: match goal with
       | H : built_from _ _ _ |- _ =>
           apply built_from_options in H
             as (term & idx & Ht & _ & Hnd & Hlook & Hletter)
       end.
  all: rewrite Ht; simpl; split; [done|]; exists idx; split; [done|].
  all: intros j; split; [|by intros ->].
  all: intros Hj; by eapply NoDup_lookup.
Qed.

Lemma mc_options_distinct_witness :
  ∃ q, NoDup (options q)
       ∧ ∃ k, letter_index (correct_answer q) = Some k
              ∧ ∀ j, options q !! j
                     = Some "Related to plants as mentioned in the context"
                     ↔ j = k.
Proof.
  destruct (mc_options_distinct plants three_terms two_sentences some_draws)
    as (qs & g' & Hrun & Hall).
  vm_compute in Hrun. injection Hrun as <- _.
  eexists. apply (Hall 0); reflexivity.
Defined.

(** C10. For given key terms and draws, [generate_multiple_choice] returns
    the same questions for any two lists of sentences of the same length. *)
Theorem mc_reads_sentence_count_only
    (text : string) (key_terms s1 s2 : list string) (g : Rng) :
  length s1 = length s2 →
  generate_multiple_choice text key_terms s1 g
  = generate_multiple_choice text key_terms s2 g.
Proof.
  intros Hlen. unfold generate_multiple_choice.
  apply for_each_ext. intros acc i g0. by apply mc_step_sentences.
Qed.

Lemma mc_reads_sentence_count_only_witness :
  generate_multiple_choice plants three_terms two_sentences some_draws
  = generate_multiple_choice plants three_terms other_sentences some_draws.
Proof.
  apply (mc_reads_sentence_count_only plants three_terms two_sentences
           other_sentences some_draws).
  reflexivity.
Defined.

(** ** The driver: claims C1 and C6 *)

(** C1. When the trimmed input is not empty, [generate_content] returns
    exactly 2 essay questions, the first prefixed "Essay Question 1: " and
    the second "Essay Question 2: ", and exactly 3 multiple-choice
    questions; when the trimmed input is empty it returns two empty
    lists. *)
Theorem generate_content_shape (input_text : string) (g : Rng) :
  (strip input_text ≠ "" →
   ∃ b1 b2 q0 q1 q2 g',
     generate_content input_text g
     = Ok (([ "Essay Question 1: " +:+ b1; "Essay Question 2: " +:+ b2 ],
            [q0; q1; q2]), g'))
  ∧ (strip input_text = "" → generate_content input_text g = Ok (([], []), g)).
Proof.
  unfold generate_content. split; intros Hs.
  - rewrite decide_False by done.
    destruct (generate_essay_questions_Ok input_text
                (extract_key_terms input_text) g) as (b1 & b2 & g1 & He).
    destruct (generate_multiple_choice_Ok input_text
                (extract_key_terms input_text) (extract_sentences input_text)
                g1) as (q0 & q1 & q2 & g2 & Hm & _).
    exists b1, b2, q0, q1, q2, g2.
    by rewrite (bind_Ok _ _ _ _ _ He), (bind_Ok _ _ _ _ _ Hm).
  - by rewrite decide_True by done.
Qed.

Lemma generate_content_shape_witness :
  (∃ b1 b2 q0 q1 q2 g',
     generate_content plants some_draws
     = Ok (([ "Essay Question 1: " +:+ b1; "Essay Question 2: " +:+ b2 ],
            [q0; q1; q2]), g'))
  ∧ generate_content blank some_draws = Ok (([], []), some_draws).
Proof.
  split.
  - apply (generate_content_shape plants some_draws). vm_compute. discriminate.
  - apply (generate_content_shape blank some_draws). reflexivity.
Defined.

(** C6. [generate_content] is total: for every input and every sequence of
    draws it returns a result and raises no exception, and so do the two
    generators for any key terms and sentences. An empty list given to
    [random.choice] would raise [IndexError]; no call does. *)
Theorem generate_content_total (input_text : string) (g : Rng) :
  (∃ r g', generate_content input_text g = Ok (r, g'))
  ∧ (∀ key_terms g0, ∃ r g',
       generate_essay_questions input_text key_terms g0 = Ok (r, g'))
  ∧ (∀ key_terms sentences g0, ∃ r g',
       generate_multiple_choice input_text key_terms sentences g0 = Ok (r, g')).
Proof.
  split_and!.
  - unfold generate_content. case_decide; [by eexists _, _|].
    destruct (generate_essay_questions_Ok input_text
                (extract_key_terms input_text) g) as (b1 & b2 & g1 & He).
    destruct (generate_multiple_choice_Ok input_text
                (extract_key_terms input_text) (extract_sentences input_text)
                g1) as (q0 & q1 & q2 & g2 & Hm & _).
    eexists _, g2.
    by rewrite (bind_Ok _ _ _ _ _ He), (bind_Ok _ _ _ _ _ Hm).
  - intros key_terms g0.
    destruct (generate_essay_questions_Ok input_text key_terms g0)
      as (b1 & b2 & g1 & He). eauto.
  - intros key_terms sentences g0.
    destruct (generate_multiple_choice_Ok input_text key_terms sentences g0)
      as (q0 & q1 & q2 & g2 & Hm & _). eauto.
Qed.

(** ** Further properties of the key terms *)

Lemma tiers_length (f : string → nat) (D : list string) :
  (∀ w, w ∈ D → 1 ≤ f w) →
  length (filter (λ w, 2 ≤ f w) D) + length (filter (λ w, f w = 1) D)
  = length D.
Proof.
  induction D as [|w D IH]; intros Hall; [done|].
  rewrite !filter_cons.
  assert (1 ≤ f w) by (apply Hall; left).
  assert (∀ x, x ∈ D → 1 ≤ f x) as HD by (intros x ?; apply Hall; by right).
  specialize (IH HD).
  destruct (decide (2 ≤ f w)), (decide (f w = 1)); simpl; lia.
Qed.

Lemma discovery_order_tiers_length ws :
  length (filter (λ w, 2 ≤ frequency ws w) (discovery_order ws))
  + length (filter (λ w, frequency ws w = 1) (discovery_order ws))
  = length (discovery_order ws).
Proof.
  apply tiers_length. intros w Hw.
  by apply frequency_present, elem_of_discovery_order.
Qed.

Lemma discovery_order_nil ws : discovery_order ws = [] ↔ ws = [].
Proof.
  split; [|by intros ->].
  intros HD. destruct ws as [|w ws]; [done|].
  assert (w ∈ discovery_order (w :: ws)) as Hw
    by (apply elem_of_discovery_order; left).
  rewrite HD in Hw. by apply elem_of_nil in Hw.
Qed.

(** X1. How many key terms there are: with fewer than 10 words of frequency at
    least 2, as many as there are distinct qualifying words, up to 10;
    otherwise as many as there are such frequent words, up to 15. The list
    is empty exactly when the text has no qualifying word. *)
Theorem extract_key_terms_size (text : string) :
  let ws := qualifying_words text in
  let primary := filter (λ w, 2 ≤ frequency ws w) (discovery_order ws) in
  length (extract_key_terms text)
  = (if decide (length primary < 10)
     then Nat.min 10 (length (discovery_order ws))
     else Nat.min 15 (length primary))
  ∧ (extract_key_terms text = [] ↔ ws = []).
Proof.
  intros ws primary.
  pose proof (discovery_order_tiers_length ws) as Htiers. fold primary in Htiers.
  assert (length (extract_key_terms text)
          = if decide (length primary < 10)
            then Nat.min 10 (length (discovery_order ws))
            else Nat.min 15 (length primary)) as Hlen.
  { rewrite extract_key_terms_spec. unfold key_terms_spec.
    fold ws. fold primary. cbv zeta. rewrite length_take.
    case_decide; [|lia]. rewrite length_app, length_take. lia. }
  split; [done|]. split; intros H.
  - apply discovery_order_nil, length_zero_iff_nil.
    apply (f_equal length) in H. simpl in H. rewrite Hlen in H.
    case_decide; lia.
  - apply length_zero_iff_nil. rewrite Hlen.
    apply discovery_order_nil in H. apply (f_equal length) in H. simpl in H.
    case_decide; lia.
Qed.

(** X2. No frequent word is lost while there are at most 15 of them, and no
    qualifying word at all while there are at most 10 distinct ones. *)
Theorem extract_key_terms_complete (text w : string) :
  let ws := qualifying_words text in
  let primary := filter (λ w, 2 ≤ frequency ws w) (discovery_order ws) in
  w ∈ ws →
  (2 ≤ frequency ws w → length primary ≤ 15 → w ∈ extract_key_terms text)
  ∧ (length (discovery_order ws) ≤ 10 → w ∈ extract_key_terms text).
Proof.
  intros ws primary Hw.
  pose proof (discovery_order_tiers_length ws) as Htiers. fold primary in Htiers.
  rewrite extract_key_terms_spec. unfold key_terms_spec.
  fold ws. fold primary. cbv zeta.
  set (pool := filter (λ w, frequency ws w = 1) (discovery_order ws)) in *.
  assert (w ∈ discovery_order ws) as HD by by apply elem_of_discovery_order.
  split.
  - intros Hfreq Hp.
    assert (w ∈ primary) as Hin by by apply list_elem_of_filter.
    case_decide.
    + rewrite take_app_ge by lia. apply elem_of_app. by left.
    + by rewrite take_ge by lia.
  - intros Hsmall.
    assert (w ∈ primary ∨ w ∈ pool) as Hin.
    { pose proof (frequency_present ws w Hw).
      destruct (decide (2 ≤ frequency ws w)).
      - left. by apply list_elem_of_filter.
      - right. apply list_elem_of_filter. split; [lia|done]. }
    case_decide.
    + rewrite (take_ge pool) by lia. rewrite take_ge by (rewrite length_app; lia).
      by apply elem_of_app.
    + assert (pool = []) as Hpool by (apply length_zero_iff_nil; lia).
      rewrite Hpool in Hin. rewrite take_ge by lia.
      destruct Hin as [?|[]%elem_of_nil]. done.
Qed.

Lemma extract_key_terms_complete_witness :
  "sunlight" ∈ extract_key_terms plants ∧ "purr" ∈ extract_key_terms pets.
Proof.
  split.
  - destruct (extract_key_terms_complete plants "sunlight") as [H _].
    + vm_compute. do 2 right. left.
    + apply H; vm_compute; lia.
  - destruct (extract_key_terms_complete pets "purr") as [_ H].
    + vm_compute. do 5 right. left.
    + apply H. vm_compute. lia.
Defined.

(** ** Where the key terms and the sentences come from *)

Lemma chars_append a b : chars (a +:+ b) = chars a ++ chars b.
Proof. induction a as [|c a IH]; simpl; [done|]. by rewrite <-IH. Qed.

Lemma take_while_drop {A} (p : A → bool) l :
  take_while p l ++ drop (length (take_while p l)) l = l.
Proof.
  induction l as [|x l IH]; simpl; [done|].
  destruct (p x); simpl; [by rewrite IH|done].
Qed.

Lemma is_az_is_word c : is_az c = true → is_word c = true.
Proof. unfold is_word. by intros ->. Qed.

Lemma take_while_last {A} (p : A → bool) l x :
  last (take_while p l) = Some x → p x = true.
Proof.
  intros Hl. apply last_Some_elem_of in Hl.
  assert (Forall (λ x, True ∧ p x = true) (take_while p l)) as H
    by by apply take_while_Forall, Forall_forall.
  rewrite Forall_forall in H. by apply H.
Qed.

Lemma findall_go_whole_word s pre prev t :
  prev = last pre → t ∈ findall_go prev s →
  ∃ p q, pre ++ s = p ++ chars t ++ q
         ∧ (∀ c, last p = Some c → is_word c = false)
         ∧ (∀ c, head q = Some c → is_word c = false).
Proof.
  revert pre prev. induction s as [|c s IH]; intros pre prev Hprev;
    [by intros ?%elem_of_nil|].
  rewrite findall_go_cons.
  assert (t ∈ findall_go (Some c) s → ∃ p q, pre ++ c :: s = p ++ chars t ++ q
            ∧ (∀ c, last p = Some c → is_word c = false)
            ∧ (∀ c, head q = Some c → is_word c = false)) as Hrest.
  { intros Hin. apply (IH (pre ++ [c])) in Hin; [|by rewrite last_snoc].
    by rewrite <-app_assoc in Hin. }
  destruct (word_boundary prev (Some c) && _ && _) eqn:Hm; [|done].
  intros [->|Hin]%elem_of_cons; [|by auto]. clear Hrest IH.
  apply andb_prop in Hm as [[Hb1 Hlen%Nat.leb_le]%andb_prop Hb2].
  set (run := take_while is_az (c :: s)) in *.
  exists pre, (drop (length run) (c :: s)). split_and!.
  - rewrite chars_str. f_equal. symmetry. apply take_while_drop.
  - intros c' Hc'. subst prev. rewrite Hc' in Hb1.
    assert (is_az c = true) as Hc.
    { subst run. simpl in Hlen. destruct (is_az c); [done|simpl in Hlen; lia]. }
    unfold word_boundary in Hb1. rewrite (is_az_is_word c Hc) in Hb1.
    by destruct (is_word c').
  - intros c' Hc'. rewrite Hc' in Hb2.
    destruct (last run) as [x|] eqn:Hx.
    + apply take_while_last in Hx. unfold word_boundary in Hb2.
      rewrite (is_az_is_word x Hx) in Hb2. by destruct (is_word c').
    + apply last_None in Hx. rewrite Hx in Hlen. simpl in Hlen. lia.
Qed.

(** X3. Every key term is a whole word of the lowered text: it stands there
    with no word character just before or after it. *)
Theorem extract_key_terms_whole_words (text t : string) :
  t ∈ extract_key_terms text → whole_word_in t (lower text).
Proof.
  rewrite extract_key_terms_spec. intros Ht%key_terms_spec_members.
  apply list_elem_of_filter in Ht as [_ Ht].
  apply (findall_go_whole_word _ [] None) in Ht; [|done].
  destruct Ht as (p & q & Heq & Hp & Hq). by exists p, q.
Qed.

Lemma extract_key_terms_whole_words_witness :
  whole_word_in "sunlight" (lower plants).
Proof.
  apply (extract_key_terms_whole_words plants "sunlight").
  vm_compute. right. left.
Defined.

Lemma re_split_go_occurs l pre frag in_run s :
  s ∈ re_split_go frag in_run l →
  ∃ p q, pre ++ frag ++ l = p ++ chars s ++ q.
Proof.
  revert pre frag in_run. induction l as [|c l IH]; intros pre frag in_run; simpl.
  - intros ->%list_elem_of_singleton. exists pre, []. by rewrite chars_str.
  - assert (s ∈ re_split_go [] true l →
            ∃ p q, pre ++ frag ++ c :: l = p ++ chars s ++ q) as Hrest.
    { intros Hin. apply (IH (pre ++ frag ++ [c])) in Hin.
      destruct Hin as (p & q & Heq). exists p, q. rewrite <-Heq.
      simpl. by rewrite <-!app_assoc. }
    destruct (is_delim c).
    + destruct in_run; [done|].
      intros [->|Hin]%elem_of_cons; [|by auto].
      exists pre, (c :: l). by rewrite chars_str.
    + intros Hin. apply (IH pre) in Hin.
      destruct Hin as (p & q & Heq). exists p, q. rewrite <-Heq.
      by rewrite <-!app_assoc.
Qed.

Lemma strip_occurs s : ∃ p q, chars s = p ++ chars (strip s) ++ q.
Proof.
  unfold strip. rewrite chars_str.
  set (inner := drop_while isspace (chars s)).
  set (outer := drop_while isspace (reverse inner)).
  assert (reverse outer `prefix_of` inner) as [q Hq].
  { rewrite <-(reverse_involutive inner). apply suffix_prefix_reverse.
    apply drop_while_suffix. }
  destruct (drop_while_suffix isspace (chars s)) as [p Hp].
  exists p, q. fold inner in Hp. by rewrite Hp, Hq.
Qed.

(** X4. Every sentence returned stands in the text as it is returned. *)
Theorem extract_sentences_verbatim (text s : string) :
  s ∈ extract_sentences text → occurs_in s text.
Proof.
  unfold extract_sentences. rewrite foldl_sentence_step, app_nil_l.
  intros [_ (f & -> & Hf)%list_elem_of_fmap]%list_elem_of_filter.
  apply (re_split_go_occurs _ []) in Hf as (p & q & Hf). simpl in Hf.
  destruct (strip_occurs f) as (p' & q' & Hs).
  exists (p ++ p'), (q' ++ q). unfold occurs_between.
  rewrite Hf, Hs. by rewrite <-!app_assoc.
Qed.

Lemma extract_sentences_verbatim_witness :
  occurs_in "Plants need water and sunlight to grow well" plants.
Proof.
  apply (extract_sentences_verbatim plants).
  vm_compute. right. left.
Defined.

(** ** Counting the draws *)

Lemma after_draws_trans a b g g1 g2 :
  after_draws a g g1 → after_draws b g1 g2 → after_draws (a + b) g g2.
Proof. unfold after_draws. intros [-> ->] [-> ->]. split; [done|lia]. Qed.

Lemma after_draws_0 g : after_draws 0 g g.
Proof. split; [done|lia]. Qed.

Lemma choice_draws {A} (l : list A) g :
  l ≠ [] → ∃ x g', choice l g = Ok (x, g') ∧ x ∈ l ∧ after_draws 1 g g'.
Proof.
  intros Hl. destruct l as [|y l]; [done|]. unfold choice.
  set (g' := {| draws := draws g; pos := S (pos g) |}).
  assert (draws g (pos g) `mod` length (y :: l) < length (y :: l)) as Hi
    by (apply Nat.mod_upper_bound; simpl; lia).
  destruct (index_at_lt (y :: l) _ g' Hi) as (x & Hx & Hlook).
  exists x, g'. split_and!.
  - by rewrite (bind_Ok _ _ g _ g' eq_refl).
  - by eapply list_elem_of_lookup_2.
  - split; simpl; [done|lia].
Qed.

Lemma choice_or_draws key_terms fallback g :
  key_terms ≠ [] →
  ∃ x g', choice_or key_terms fallback g = Ok (x, g')
          ∧ x ∈ key_terms ∧ after_draws 1 g g'.
Proof.
  intros Hk. destruct key_terms as [|k l]; [done|]. by apply choice_draws.
Qed.

Lemma shuffle_from_draws {A} i (x : list A) g :
  i < length x ∨ i = 0 →
  ∃ x' g', shuffle_from i x g = Ok (x', g') ∧ x' ≡ₚ x ∧ after_draws i g g'.
Proof.
  revert x g. induction i as [|i IH]; intros x g Hi; simpl.
  - exists x, g. split_and!; [done..|apply after_draws_0].
  - destruct Hi as [Hi|?]; [|done].
    set (g1 := {| draws := draws g; pos := S (pos g) |}).
    assert (draws g (pos g) `mod` S (S i) < S (S i)) as Hj
      by (apply Nat.mod_upper_bound; lia).
    rewrite (bind_Ok _ _ g _ g1 eq_refl).
    destruct (swap_Ok x (S i) (draws g (pos g) `mod` S (S i)) g1)
      as (x1 & Hs & Hp); [lia..|].
    rewrite (bind_Ok _ _ _ _ _ Hs).
    destruct (IH x1 g1) as (x2 & g2 & Hx2 & Hp2 & [Hd Hpos]).
    { left. rewrite (Permutation_length Hp). lia. }
    exists x2, g2. split_and!; [done|by etrans|].
    split; [by rewrite Hd|rewrite Hpos; simpl; lia].
Qed.

Lemma mc_step_draws key_terms sentences acc i g :
  in_bounds key_terms sentences i = true →
  ∃ q g', mc_step key_terms sentences acc i g = Ok (acc ++ [q], g')
          ∧ after_draws 7 g g'.
Proof.
  unfold in_bounds, mc_step. intros Hb. rewrite Hb.
  apply andb_prop in Hb as [Hk%bool_decide_eq_true Hs%bool_decide_eq_true].
  rewrite (bool_decide_eq_true_2 _ Hs).
  assert (key_terms ≠ []) as Hne by (intros ->; simpl in Hk; lia).
  destruct (index_at_lt key_terms i g Hk) as (term & Ht & Hterm).
  destruct (index_at_lt sentences i g Hs) as (ctx & Hc & _).
  destruct (choice_draws question_starters g) as (starter & g1 & Hst & _ & D1);
    [done|].
  destruct (choice_or_draws key_terms "general topic" g1 Hne)
    as (a & g2 & Ha & _ & D2).
  destruct (choice_or_draws key_terms "another topic" g2 Hne)
    as (b & g3 & Hb & _ & D3).
  destruct (choice_or_draws key_terms "different subject" g3 Hne)
    as (c & g4 & Hc' & _ & D4).
  destruct (shuffle_from_draws 3 (options_of term a b c) g4)
    as (opts & g5 & Hsh & Hp & D5); [simpl; lia|].
  destruct (index_of_Ok opts (correct_text term) g5) as (idx & Hidx & Hli).
  { rewrite Hp. left. }
  rewrite (bind_Ok _ _ _ _ _ Ht), (bind_Ok _ _ _ _ _ Hc),
    (bind_Ok _ _ _ _ _ Hst), (bind_Ok _ _ _ _ _ Ha), (bind_Ok _ _ _ _ _ Hb),
    (bind_Ok _ _ _ _ _ Hc').
  change [correct_text term; "Unrelated concept A about " +:+ a;
          "Unrelated concept B about " +:+ b;
          "Unrelated concept C about " +:+ c]
    with (options_of term a b c).
  change (shuffle (options_of term a b c))
    with (shuffle_from 3 (options_of term a b c)).
  rewrite (bind_Ok _ _ _ _ _ Hsh), (bind_Ok _ _ _ _ _ Hidx).
  eexists _, g5. split; [reflexivity|].
  pose proof (after_draws_trans _ _ _ _ _ D1 D2) as D.
  pose proof (after_draws_trans _ _ _ _ _ D D3) as D'.
  pose proof (after_draws_trans _ _ _ _ _ D' D4) as D''.
  exact (after_draws_trans _ _ _ _ _ D'' D5).
Qed.

Lemma mc_step_draws_any key_terms sentences acc i g :
  ∃ q g', mc_step key_terms sentences acc i g = Ok (acc ++ [q], g')
          ∧ after_draws (if in_bounds key_terms sentences i then 7 else 0) g g'.
Proof.
  destruct (in_bounds key_terms sentences i) eqn:Hb.
  - by apply mc_step_draws.
  - exists generic_question, g. split; [by apply mc_step_generic|].
    apply after_draws_0.
Qed.

Lemma in_bounds_count key_terms sentences :
  (if in_bounds key_terms sentences 0 then 7 else 0)
  + (if in_bounds key_terms sentences 1 then 7 else 0)
  + (if in_bounds key_terms sentences 2 then 7 else 0)
  = 7 * Nat.min 3 (Nat.min (length key_terms) (length sentences)).
Proof. unfold in_bounds. repeat case_bool_decide; cbn [andb]; lia. Qed.

Lemma generate_multiple_choice_draws text key_terms sentences g :
  ∃ qs g', generate_multiple_choice text key_terms sentences g = Ok (qs, g')
    ∧ after_draws
        (7 * Nat.min 3 (Nat.min (length key_terms) (length sentences))) g g'.
Proof.
  destruct (mc_step_draws_any key_terms sentences [] 0 g)
    as (q0 & g0 & H0 & D0).
  destruct (mc_step_draws_any key_terms sentences [q0] 1 g0)
    as (q1 & g1 & H1 & D1).
  destruct (mc_step_draws_any key_terms sentences [q0; q1] 2 g1)
    as (q2 & g2 & H2 & D2).
  exists [q0; q1; q2], g2. split.
  - unfold generate_multiple_choice. simpl.
    rewrite (bind_Ok _ _ _ _ _ H0). simpl.
    rewrite (bind_Ok _ _ _ _ _ H1). simpl.
    by rewrite (bind_Ok _ _ _ _ _ H2).
  - rewrite <-in_bounds_count.
    exact (after_draws_trans _ _ _ _ _
             (after_draws_trans _ _ _ _ _ D0 D1) D2).
Qed.

(** ** What the essay questions say *)

Lemma format_prompt p term :
  p ∈ essay_prompts → format p term = before_slot p +:+ term +:+ after_slot p.
Proof.
  unfold essay_prompts. rewrite !elem_of_cons, elem_of_nil.
  intros [->|[->|[->|[->|[->|[]]]]]]; reflexivity.
Qed.

Lemma selected_two (key_terms : list string) :
  take 2 (if decide (3 ≤ length key_terms) then take 3 key_terms else key_terms)
  = take 2 key_terms.
Proof. case_decide; [|done]. by rewrite take_take. Qed.

Lemma essay_step_content acc i term g :
  ∃ p g', p ∈ essay_prompts
    ∧ essay_step acc (i, term) g
      = Ok (acc ++ ["Essay Question " +:+ of_nat (i + 1) +:+ ": "
                      +:+ before_slot p +:+ term +:+ after_slot p], g')
    ∧ after_draws 1 g g'.
Proof.
  destruct (choice_draws essay_prompts g) as (p & g' & Hp & Hin & D); [done|].
  exists p, g'. split_and!; [done| |done]. unfold essay_step.
  by rewrite (bind_Ok _ _ _ _ _ Hp), format_prompt.
Qed.

(** X5. Essay question 1 is on the first key term and essay question 2 on the
    second, each one of the 5 prompts with the term in the place of its
    slot; a question for which there is no key term is the generic one. One
    draw is made for each key term used. *)
Theorem generate_essay_questions_content
    (text : string) (key_terms : list string) (g : Rng) :
  ∃ e1 e2 g',
    generate_essay_questions text key_terms g = Ok ([e1; e2], g')
    ∧ essay_at key_terms 0 e1
    ∧ essay_at key_terms 1 e2
    ∧ after_draws (Nat.min 2 (length key_terms)) g g'.
Proof.
  unfold generate_essay_questions. rewrite selected_two.
  destruct key_terms as [|t1 [|t2 rest]].
  - exists (generic_essay 1), (generic_essay 2), g.
    split_and!; [|done|done|apply after_draws_0].
    change (Ok (fill_generic [], g)
            = Ok ([generic_essay 1; generic_essay 2], g)).
    by rewrite fill_generic_none.
  - destruct (essay_step_content [] 0 t1 g) as (p1 & g1 & Hp1 & H1 & D1).
    eexists _, (generic_essay 2), g1. split_and!; [|by exists p1|done|done].
    unfold enumerate. cbn [take length seq zip_with for_each].
    rewrite bind_bind, (bind_Ok _ _ _ _ _ H1), ret_bind, app_nil_l.
    unfold ret. by rewrite fill_generic_one.
  - destruct (essay_step_content [] 0 t1 g) as (p1 & g1 & Hp1 & H1 & D1).
    destruct (essay_step_content
                ([] ++ ["Essay Question " +:+ of_nat (0 + 1) +:+ ": "
                          +:+ before_slot p1 +:+ t1 +:+ after_slot p1])
                1 t2 g1) as (p2 & g2 & Hp2 & H2 & D2).
    eexists _, _, g2. split_and!; [|by exists p1|by exists p2|].
    + unfold enumerate. cbn [take length seq zip_with for_each].
      rewrite take_0. cbn [length seq zip_with for_each].
      rewrite bind_bind, (bind_Ok _ _ _ _ _ H1), bind_bind,
        (bind_Ok _ _ _ _ _ H2), ret_bind.
      unfold ret. cbn [app]. by rewrite fill_generic_full.
    + exact (after_draws_trans _ _ _ _ _ D1 D2).
Qed.

(** X6. Only the first two key terms are read, and the text not at all. *)
Theorem generate_essay_questions_first_two
    (text text' : string) (key_terms : list string) (g : Rng) :
  generate_essay_questions text key_terms g
  = generate_essay_questions text' (take 2 key_terms) g.
Proof.
  unfold generate_essay_questions.
  by rewrite !selected_two, take_take.
Qed.

(** ** The shape of the generated content *)

Lemma generate_content_shape_aux input_text g :
  strip input_text ≠ "" →
  ∃ b1 b2 q0 q1 q2 g',
    generate_content input_text g
    = Ok (([ "Essay Question 1: " +:+ b1; "Essay Question 2: " +:+ b2 ],
           [q0; q1; q2]), g').
Proof.
  intros Hs. unfold generate_content. rewrite decide_False by done.
  destruct (generate_essay_questions_Ok input_text
              (extract_key_terms input_text) g) as (b1 & b2 & g1 & He).
  destruct (generate_multiple_choice_Ok input_text
              (extract_key_terms input_text) (extract_sentences input_text)
              g1) as (q0 & q1 & q2 & g2 & Hm & _).
  exists b1, b2, q0, q1, q2, g2.
  by rewrite (bind_Ok _ _ _ _ _ He), (bind_Ok _ _ _ _ _ Hm).
Qed.

(** ** Degenerate texts and the number of draws *)

Lemma generate_multiple_choice_generic text key_terms sentences g :
  key_terms = [] ∨ sentences = [] →
  generate_multiple_choice text key_terms sentences g
  = Ok ([generic_question; generic_question; generic_question], g).
Proof.
  intros Hempty.
  assert (∀ i, in_bounds key_terms sentences i = false) as Hb.
  { intros i. unfold in_bounds.
    apply andb_false_iff.
    destruct Hempty as [-> | ->]; [left|right];
      apply bool_decide_eq_false; simpl; lia. }
  unfold generate_multiple_choice. simpl.
  rewrite (bind_Ok _ _ _ _ _ (mc_step_generic _ _ [] 0 g (Hb 0))). simpl.
  rewrite (bind_Ok _ _ _ _ _ (mc_step_generic _ _ _ 1 g (Hb 1))). simpl.
  by rewrite (bind_Ok _ _ _ _ _ (mc_step_generic _ _ _ 2 g (Hb 2))).
Qed.

Lemma after_draws_0_eq g g' : after_draws 0 g g' → g' = g.
Proof.
  destruct g, g'. unfold after_draws. simpl. intros [-> ->]. f_equal. lia.
Qed.

(** X7. A text that is not blank but has no key term gets the two generic
    essay questions and three generic quiz questions, and no draw is made;
    a text with no sentence of 5 words gets three generic quiz questions
    whatever its key terms. *)
Theorem generate_content_degenerate (input_text : string) (g : Rng) :
  strip input_text ≠ "" →
  (extract_key_terms input_text = [] →
   generate_content input_text g
   = Ok (([generic_essay 1; generic_essay 2],
          [generic_question; generic_question; generic_question]), g))
  ∧ (extract_sentences input_text = [] →
     ∃ e1 e2 g',
       generate_content input_text g
       = Ok (([e1; e2],
              [generic_question; generic_question; generic_question]), g')).
Proof.
  intros Hs. unfold generate_content. rewrite decide_False by done. split.
  - intros Hk. rewrite Hk.
    destruct (generate_essay_questions_content input_text [] g)
      as (e1 & e2 & g1 & He & E1 & E2 & D).
    apply after_draws_0_eq in D. unfold essay_at in E1, E2. simpl in E1, E2.
    subst e1 e2 g1.
    rewrite (bind_Ok _ _ _ _ _ He).
    by rewrite (bind_Ok _ _ _ _ _
                  (generate_multiple_choice_generic input_text [] _ g
                     (or_introl eq_refl))).
  - intros Hsent. rewrite Hsent.
    destruct (generate_essay_questions_content input_text
                (extract_key_terms input_text) g)
      as (e1 & e2 & g1 & He & _).
    exists e1, e2, g1.
    rewrite (bind_Ok _ _ _ _ _ He).
    by rewrite (bind_Ok _ _ _ _ _
                  (generate_multiple_choice_generic input_text _ [] g1
                     (or_intror eq_refl))).
Qed.

Lemma generate_content_degenerate_witness :
  generate_content digits_text some_draws
  = Ok (([generic_essay 1; generic_essay 2],
         [generic_question; generic_question; generic_question]), some_draws)
  ∧ ∃ e1 e2 g',
      generate_content short_sentences some_draws
      = Ok (([e1; e2],
             [generic_question; generic_question; generic_question]), g').
Proof.
  split.
  - apply (generate_content_degenerate digits_text some_draws).
    + vm_compute. discriminate.
    + reflexivity.
  - apply (generate_content_degenerate short_sentences some_draws).
    + vm_compute. discriminate.
    + reflexivity.
Defined.

(** X8. The number of draws depends on the sizes only: the quiz makes 7 draws
    for each index below 3 that both lists have, the essays one for each of
    the first two key terms, and a blank text makes none. The sequence of
    draws itself is left as it was. *)
Theorem draws_consumed
    (text : string) (key_terms sentences : list string) (g : Rng) :
  (∃ qs g',
     generate_multiple_choice text key_terms sentences g = Ok (qs, g')
     ∧ after_draws
         (7 * Nat.min 3 (Nat.min (length key_terms) (length sentences))) g g')
  ∧ (∃ r g',
       generate_content text g = Ok (r, g')
       ∧ after_draws
           (if decide (strip text = "") then 0
            else Nat.min 2 (length (extract_key_terms text))
                 + 7 * Nat.min 3 (Nat.min (length (extract_key_terms text))
                                          (length (extract_sentences text))))
           g g').
Proof.
  split; [apply generate_multiple_choice_draws|].
  unfold generate_content. case_decide.
  - eexists _, g. split; [reflexivity|apply after_draws_0].
  - destruct (generate_essay_questions_content text (extract_key_terms text) g)
      as (e1 & e2 & g1 & He & _ & _ & D1).
    destruct (generate_multiple_choice_draws text (extract_key_terms text)
                (extract_sentences text) g1) as (qs & g2 & Hm & D2).
    eexists _, g2. split.
    + by rewrite (bind_Ok _ _ _ _ _ He), (bind_Ok _ _ _ _ _ Hm).
    + exact (after_draws_trans _ _ _ _ _ D1 D2).
Qed.

(** ** What [main] reports and writes *)

(** X9. The report "could not generate" is never made: a click on a text that
    is not blank reports 2 essay questions and 3 quiz questions, those of
    [generate_content]; a click on a blank text asks for a text; no click
    reports nothing, and only the first case makes draws. *)
Theorem main_report_cases (generate_clicked : bool) (input_text : string)
    (g : Rng) :
  ∃ rep g',
    main_report generate_clicked input_text g = Ok (rep, g')
    ∧ match rep with
      | Generated e m =>
          generate_clicked = true ∧ strip input_text ≠ ""
          ∧ length e = 2 ∧ length m = 3
          ∧ generate_content input_text g = Ok ((e, m), g')
      | CouldNotGenerate => False
      | PleaseEnterText =>
          generate_clicked = true ∧ strip input_text = "" ∧ g' = g
      | NoReport => generate_clicked = false ∧ g' = g
      end.
Proof.
  unfold main_report. destruct generate_clicked; simpl.
  - destruct (String.eqb (strip input_text) "") eqn:Hs; simpl.
    + apply eqb_true_iff in Hs. by exists PleaseEnterText, g.
    + apply eqb_false_iff in Hs.
      destruct (generate_content_shape_aux input_text g Hs)
        as (b1 & b2 & q0 & q1 & q2 & g' & Hrun).
      rewrite (bind_Ok _ _ _ _ _ Hrun). simpl.
      eexists _, g'. split; [reflexivity|]. by split_and!.
  - by exists NoReport, g.
Qed.

Lemma option_lines_four (q : MCQuestion) o0 o1 o2 o3 idx :
  options q = [o0; o1; o2; o3] → correct_answer q = chr (65 + idx) →
  idx < 4 →
  ∃ o, [o0; o1; o2; o3] !! idx = Some o
       ∧ filter is_marked (option_lines q) = [Marked (correct_answer q) o]
       ∧ correct_answer q ∈ ["A"; "B"; "C"; "D"].
Proof.
  intros Hopts Hca Hlt. unfold option_lines, enumerate. rewrite Hopts, Hca.
  destruct idx as [|[|[|[|idx]]]]; [| | | |lia].
  - exists o0. split_and!; [reflexivity..|]. left.
  - exists o1. split_and!; [reflexivity..|]. right. left.
  - exists o2. split_and!; [reflexivity..|]. do 2 right. left.
  - exists o3. split_and!; [reflexivity..|]. do 3 right. left.
Qed.

Lemma question_at_lines key_terms sentences i q :
  question_at key_terms sentences i q →
  length (option_lines q) = 4
  ∧ filter is_marked (option_lines q)
    = [Marked (correct_answer q) (intended_answer key_terms sentences i)]
  ∧ correct_answer q ∈ ["A"; "B"; "C"; "D"].
Proof.
  unfold question_at, intended_answer.
  destruct (in_bounds key_terms sentences i).
  - intros (term & starter & a & b & c & idx & Ht & _ & _ & _ & _ & Hp & Hidx
            & _ & Hca & _).
    apply list_index_Some in Hidx as [Hlook Hlt].
    assert (length (options q) = 4) as Hlen by by rewrite Hp.
    rewrite Ht. cbn [default].
    destruct (options q) as [|o0 [|o1 [|o2 [|o3 [|o4 os]]]]] eqn:Hopts;
      try discriminate Hlen.
    destruct (option_lines_four q o0 o1 o2 o3 idx Hopts Hca)
      as (o & Ho & Hmark & Hletter); [by rewrite <-Hlen|].
    rewrite Hlook in Ho. injection Ho as <-.
    split_and!; [|done|done].
    unfold option_lines, enumerate. rewrite Hopts. reflexivity.
  - intros ->. split_and!; [reflexivity|reflexivity|]. left.
Qed.

(** X10. Of the four lines written for the options of a generated question,
    exactly one is marked as the answer, and it carries the intended
    answer; the answer letter is one of A, B, C and D. *)
Theorem option_lines_mark_answer
    (text : string) (key_terms sentences : list string) (g : Rng) :
  ∃ qs g',
    generate_multiple_choice text key_terms sentences g = Ok (qs, g')
    ∧ ∀ i q, qs !! i = Some q →
        length (option_lines q) = 4
        ∧ filter is_marked (option_lines q)
          = [Marked (correct_answer q) (intended_answer key_terms sentences i)]
        ∧ correct_answer q ∈ ["A"; "B"; "C"; "D"].
Proof.
  destruct (generate_multiple_choice_Ok text key_terms sentences g)
    as (q0 & q1 & q2 & g' & Hrun & Q0 & Q1 & Q2).
  exists [q0; q1; q2], g'. split; [done|].
  apply lookup_three; by apply question_at_lines.
Qed.

Lemma option_lines_mark_answer_witness :
  ∃ q, filter is_marked (option_lines q)
       = [Marked "D" "Related to sunlight as mentioned in the context"].
Proof.
  destruct (option_lines_mark_answer plants three_terms two_sentences
              some_draws) as (qs & g' & Hrun & Hall).
  vm_compute in Hrun. injection Hrun as <- _.
  destruct (Hall 1 _ eq_refl) as (_ & Hmark & _).
  eexists. exact Hmark.
Defined.

(** ** Taking the label off an essay question *)

Lemma starts_with_app old s : starts_with old (old ++ s) = true.
Proof. induction old as [|c old IH]; simpl; [done|]. by rewrite Ascii.eqb_refl. Qed.

Lemma replace_go_skip old new l s :
  replace_go old new (length l) (l ++ s) = replace_go old new 0 s.
Proof. induction l as [|c l IH]; [done|]. exact IH. Qed.

Lemma replace_go_no_Es old new s :
  no_Es s = true →
  replace_go ("E"%char :: "s"%char :: old) new 0 s = s.
Proof.
  induction s as [|c s IH]; [done|]. intros H.
  cbn [replace_go starts_with].
  destruct s as [|d s].
  - by rewrite andb_false_r.
  - cbn [no_Es] in H. apply andb_prop in H as [Hcd Hrest].
    rewrite (Ascii.eqb_sym "E" c), (Ascii.eqb_sym "s" d), andb_assoc.
    apply negb_true_iff in Hcd. rewrite Hcd. cbn [andb].
    by rewrite (IH Hrest).
Qed.

(** Replacing a label that starts with [Es] by nothing, in the label
    followed by a text where no [E] is followed by an [s], leaves the
    text. *)
Lemma replace_label old rest body :
  chars old = "E"%char :: "s"%char :: rest →
  no_Es (chars body) = true →
  replace (old +:+ body) old "" = body.
Proof.
  intros Hold Hbody. unfold replace. rewrite chars_append, Hold.
  change (chars "") with (@nil ascii).
  change (("E"%char :: "s"%char :: rest) ++ chars body)
    with ("E"%char :: (("s"%char :: rest) ++ chars body)).
  cbn [replace_go].
  change ("E"%char :: (("s"%char :: rest) ++ chars body))
    with (("E"%char :: "s"%char :: rest) ++ chars body).
  rewrite starts_with_app, app_nil_l.
  change (length ("E"%char :: "s"%char :: rest) - 1)
    with (length ("s"%char :: rest)).
  by rewrite replace_go_skip, replace_go_no_Es, str_chars.
Qed.

Lemma no_Es_app l1 l2 :
  no_Es l1 = true → no_Es l2 = true → last l1 ≠ Some "E"%char →
  no_Es (l1 ++ l2) = true.
Proof.
  induction l1 as [|c l1 IH]; [done|]. intros H1 H2 Hlast.
  destruct l1 as [|d l1].
  - destruct l2 as [|e l2]; [done|]. cbn [app no_Es].
    assert (Ascii.eqb c "E" = false) as ->
      by (apply Ascii.eqb_neq; intros ->; by apply Hlast).
    done.
  - cbn [no_Es] in H1. apply andb_prop in H1 as [Hcd Hrest].
    change ((c :: d :: l1) ++ l2) with (c :: d :: (l1 ++ l2)).
    cbn [no_Es]. rewrite Hcd. cbn [andb].
    apply (IH Hrest H2). by rewrite last_cons_cons in Hlast.
Qed.

Lemma no_Es_cons_cons c d l :
  no_Es (c :: d :: l)
  = negb (Ascii.eqb c "E" && Ascii.eqb d "s") && no_Es (d :: l).
Proof. reflexivity. Qed.

Lemma no_Es_without_E l :
  Forall (λ c, c ≠ "E"%char) l → no_Es l = true ∧ last l ≠ Some "E"%char.
Proof.
  induction 1 as [|c l Hc Hl [IH1 IH2]]; [done|].
  destruct l as [|d l].
  - split; [done|]. simpl. congruence.
  - split.
    + rewrite no_Es_cons_cons, IH1.
      apply Ascii.eqb_neq in Hc. by rewrite Hc.
    + by rewrite last_cons_cons.
Qed.

Lemma lower_not_E c : is_lower_az c = true → c ≠ "E"%char.
Proof. intros H ->. vm_compute in H. discriminate. Qed.

Lemma prompt_no_Es p :
  p ∈ essay_prompts →
  no_Es (chars (before_slot p)) = true
  ∧ last (chars (before_slot p)) ≠ Some "E"%char
  ∧ no_Es (chars (after_slot p)) = true.
Proof.
  unfold essay_prompts. rewrite !elem_of_cons, elem_of_nil.
  intros [->|[->|[->|[->|[->|[]]]]]]; vm_compute; by split_and!.
Qed.

Lemma body_no_Es p term :
  p ∈ essay_prompts → Forall (λ c, c ≠ "E"%char) (chars term) →
  no_Es (chars (before_slot p +:+ term +:+ after_slot p)) = true.
Proof.
  intros (Hpre & Hlast & Hpost)%prompt_no_Es [Hterm Htlast]%no_Es_without_E.
  rewrite !chars_append, app_assoc.
  apply no_Es_app; [by apply no_Es_app|done|].
  rewrite last_app. by destruct (last (chars term)).
Qed.

(** The text written for a generated essay question is what follows its
    label, as long as the key term has no capital E. *)
Lemma essay_at_text key_terms i e :
  i < 2 →
  (∀ t, key_terms !! i = Some t → Forall (λ c, c ≠ "E"%char) (chars t)) →
  essay_at key_terms i e →
  ∃ b, e = "Essay Question " +:+ of_nat (i + 1) +:+ ": " +:+ b
       ∧ essay_text (i + 1) e = b.
Proof.
  intros Hi Hterm. unfold essay_at.
  assert (∃ rest, chars ("Essay Question " +:+ of_nat (i + 1) +:+ ": ")
                  = "E"%char :: "s"%char :: rest) as [rest Hlabel].
  { destruct i as [|[|i]]; [by eexists..|lia]. }
  assert (∀ b, "Essay Question " +:+ of_nat (i + 1) +:+ ": " +:+ b
               = ("Essay Question " +:+ of_nat (i + 1) +:+ ": ") +:+ b) as Hassoc.
  { intros b. destruct i as [|[|i]]; [reflexivity..|lia]. }
  destruct (key_terms !! i) as [term|].
  - intros (p & Hp & ->). eexists. split; [reflexivity|].
    unfold essay_text. rewrite Hassoc.
    apply (replace_label _ rest); [done|]. by apply body_no_Es, Hterm.
  - intros ->. exists generic_body. split; [reflexivity|].
    unfold essay_text, generic_essay. rewrite Hassoc.
    by apply (replace_label _ rest).
Qed.

(** X11. For the essay questions of a generated content, the page and the
    export write exactly what follows the label "Essay Question N: ". *)
Theorem essay_texts_recover_bodies (input_text : string) (g : Rng) :
  strip input_text ≠ "" →
  ∃ b1 b2 mcs g',
    generate_content input_text g
    = Ok (([ "Essay Question 1: " +:+ b1; "Essay Question 2: " +:+ b2 ], mcs),
          g')
    ∧ essay_texts [ "Essay Question 1: " +:+ b1; "Essay Question 2: " +:+ b2 ]
      = [b1; b2].
Proof.
  intros Hs.
  destruct (generate_essay_questions_content input_text
              (extract_key_terms input_text) g)
    as (e1 & e2 & g1 & He & E1 & E2 & _).
  destruct (generate_multiple_choice_Ok input_text
              (extract_key_terms input_text) (extract_sentences input_text) g1)
    as (q0 & q1 & q2 & g2 & Hm & _).
  assert (∀ i t, extract_key_terms input_text !! i = Some t →
                 Forall (λ c, c ≠ "E"%char) (chars t)) as Hterms.
  { intros i t Ht%list_elem_of_lookup_2.
    rewrite extract_key_terms_spec in Ht.
    apply key_terms_spec_members, list_elem_of_filter in Ht as [_ Ht].
    apply findall_words_lower_term in Ht as [_ Hlower].
    eapply Forall_impl; [exact Hlower|]. intros c. apply lower_not_E. }
  apply essay_at_text in E1 as (b1 & -> & T1); [|lia|by apply Hterms].
  apply essay_at_text in E2 as (b2 & -> & T2); [|lia|by apply Hterms].
  exists b1, b2, [q0; q1; q2], g2. split.
  - unfold generate_content. rewrite decide_False by done.
    by rewrite (bind_Ok _ _ _ _ _ He), (bind_Ok _ _ _ _ _ Hm).
  - change (essay_texts ["Essay Question 1: " +:+ b1;
                         "Essay Question 2: " +:+ b2])
      with [essay_text 1 ("Essay Question 1: " +:+ b1);
            essay_text 2 ("Essay Question 2: " +:+ b2)].
    change (essay_text 1 ("Essay Question 1: " +:+ b1)) with
      (essay_text (0 + 1) ("Essay Question " +:+ of_nat (0 + 1) +:+ ": " +:+ b1)).
    change (essay_text 2 ("Essay Question 2: " +:+ b2)) with
      (essay_text (1 + 1) ("Essay Question " +:+ of_nat (1 + 1) +:+ ": " +:+ b2)).
    by rewrite T1, T2.
Qed.

Lemma essay_texts_recover_bodies_witness :
  ∃ b1 b2 mcs g',
    generate_content plants some_draws
    = Ok (([ "Essay Question 1: " +:+ b1; "Essay Question 2: " +:+ b2 ], mcs),
          g')
    ∧ essay_texts [ "Essay Question 1: " +:+ b1; "Essay Question 2: " +:+ b2 ]
      = [b1; b2].
Proof.
  apply (essay_texts_recover_bodies plants some_draws).
  vm_compute. discriminate.
Defined.

(** ** Quiz questions on different terms *)

Lemma append_inj_l s a b : s +:+ a = s +:+ b → a = b.
Proof. induction s as [|c s IH]; simpl; [done|]. intros [= H]. auto. Qed.

Lemma append_inj_r s a b : a +:+ s = b +:+ s → a = b.
Proof.
  intros H. apply (f_equal chars) in H. rewrite !chars_append in H.
  apply app_inv_tail in H. by rewrite <-(str_chars a), <-(str_chars b), H.
Qed.

Lemma built_from_distinct key_terms i j qi qj :
  NoDup key_terms → i ≠ j →
  built_from key_terms i qi → built_from key_terms j qj →
  explanation qi ≠ explanation qj
  ∧ correct_text (default "" (key_terms !! i))
    ≠ correct_text (default "" (key_terms !! j)).
Proof.
  intros Hnd Hij
    (ti & _ & _ & _ & _ & _ & Hti & _ & _ & _ & _ & _ & _ & _ & _ & Hei)
    (tj & _ & _ & _ & _ & _ & Htj & _ & _ & _ & _ & _ & _ & _ & _ & Hej).
  assert (ti ≠ tj) as Hne.
  { intros ->. apply Hij. by eapply NoDup_lookup. }
  rewrite Hti, Htj, Hei, Hej. simpl. unfold correct_text. split; intros H.
  - by apply append_inj_l, append_inj_r in H.
  - by apply append_inj_l, append_inj_r in H.
Qed.

(** X12. In a generated content no two quiz questions built on a term are on
    the same term: their explanations and their intended answers
    differ. *)
Theorem quiz_questions_on_distinct_terms (input_text : string) (g : Rng) :
  let key_terms := extract_key_terms input_text in
  let sentences := extract_sentences input_text in
  strip input_text ≠ "" →
  ∃ essays q0 q1 q2 g',
    generate_content input_text g = Ok ((essays, [q0; q1; q2]), g')
    ∧ ∀ i j qi qj,
        i ≠ j →
        [q0; q1; q2] !! i = Some qi → [q0; q1; q2] !! j = Some qj →
        in_bounds key_terms sentences i = true →
        in_bounds key_terms sentences j = true →
        explanation qi ≠ explanation qj
        ∧ intended_answer key_terms sentences i
          ≠ intended_answer key_terms sentences j.
Proof.
  intros key_terms sentences Hs.
  destruct (generate_essay_questions_Ok input_text key_terms g)
    as (b1 & b2 & g1 & He).
  destruct (generate_multiple_choice_Ok input_text key_terms sentences g1)
    as (q0 & q1 & q2 & g2 & Hm & Q0 & Q1 & Q2).
  eexists _, q0, q1, q2, g2. split.
  - unfold generate_content. rewrite decide_False by done.
    fold key_terms. fold sentences.
    by rewrite (bind_Ok _ _ _ _ _ He), (bind_Ok _ _ _ _ _ Hm).
  - pose proof (lookup_three q0 q1 q2 (question_at key_terms sentences)
                  Q0 Q1 Q2) as Hall.
    intros i j qi qj Hij Hi Hj Hbi Hbj.
    apply Hall in Hi, Hj. unfold question_at, intended_answer in *.
    rewrite Hbi in *. rewrite Hbj in *.
    apply (built_from_distinct key_terms i j qi qj); try done.
    subst key_terms. rewrite extract_key_terms_spec.
    apply key_terms_spec_NoDup.
Qed.

Lemma quiz_questions_on_distinct_terms_witness :
  ∃ essays q0 q1 q2 g',
    generate_content plants some_draws = Ok ((essays, [q0; q1; q2]), g')
    ∧ explanation q0 ≠ explanation q1.
Proof.
  destruct (quiz_questions_on_distinct_terms plants some_draws)
    as (essays & q0 & q1 & q2 & g' & Hrun & Hall).
  - vm_compute. discriminate.
  - exists essays, q0, q1, q2, g'. split; [exact Hrun|].
    apply (Hall 0 1 q0 q1); [lia|reflexivity|reflexivity|reflexivity|reflexivity].
Defined.
